(** * GELFLogger: a shallow embedding of [src/gelf-logger.js]

    The logger is a JavaScript class.  Its instance state is the record
    [Logger]; the objects it shares with other loggers (the outbound queue
    array and the WebSocket) live in a heap, [World], together with the
    trace of the I/O it performs.  Methods are written in a small
    state-and-exception monad, so that [try]/[catch] reads as in the source.

    The host platform (JSON, String, WebSocket, the global scope) is not part
    of the repository: it is the interface [Host], and every statement below
    holds for every host. *)

From Stdlib Require Import ZArith Lia.
From stdpp Require Import base strings list pretty.

Local Open Scope string_scope.
Set Warnings "-register-all".

(* ===================================================================== *)
(** ** JavaScript data values *)
(* ===================================================================== *)

(** The values a caller can pass as data.  [VSeconds ms] is the number
    [ms / 1000], as produced by [Date.now() / 1000]; the other numbers of the
    logger are integers. *)
Inductive value : Type :=
| VUndefined
| VNull
| VBool (b : bool)
| VNum (n : Z)
| VSeconds (ms : Z)
| VStr (s : string)
| VObj (props : list (string * value))
| VArr (items : list value).

(** An object is its own enumerable properties, in insertion order. *)
Abbreviation object := (list (string * value)).

Inductive js_type := TUndefined | TObject | TBoolean | TNumber | TString.

Definition typeof (v : value) : js_type :=
  match v with
  | VUndefined => TUndefined
  | VNull | VObj _ | VArr _ => TObject
  | VBool _ => TBoolean
  | VNum _ | VSeconds _ => TNumber
  | VStr _ => TString
  end.

Definition is_object_type (v : value) : bool :=
  match typeof v with TObject => true | _ => false end.

(** [if (v)] *)
Definition truthy (v : value) : bool :=
  match v with
  | VUndefined | VNull => false
  | VBool b => b
  | VNum n => negb (n =? 0)%Z
  | VSeconds ms => negb (ms =? 0)%Z
  | VStr s => negb (bool_decide (s = ""))
  | VObj _ | VArr _ => true
  end.

(** [v === null || v === undefined] *)
Definition is_nullish (v : value) : bool :=
  match v with VUndefined | VNull => true | _ => false end.

(** A value that is neither a primitive nor text: what the spec calls a
    live object. *)
Definition is_live_object (v : value) : bool :=
  match v with VObj _ | VArr _ => true | _ => false end.

(** [a || b] on optional strings: the first operand when it is truthy. *)
Definition str_truthy (o : option string) : bool :=
  match o with Some s => negb (bool_decide (s = "")) | None => false end.



(** Default parameter [x = d]: applies when the argument is [undefined]. *)
Definition default_arg (d v : value) : value :=
  match v with VUndefined => d | _ => v end.

(* --------------------------------------------------------------------- *)
(** *** Property tables *)

Section Props.
Context {A : Type}.

(** [o[k]] on own properties. *)
Fixpoint get_prop (o : list (string * A)) (k : string) : option A :=
  match o with
  | [] => None
  | (k', v) :: o' => if bool_decide (k' = k) then Some v else get_prop o' k
  end.

(** [o[k] = v]: an existing property keeps its place, a new one goes
    last. *)
Fixpoint set_prop (o : list (string * A)) (k : string) (v : A)
  : list (string * A) :=
  match o with
  | [] => [(k, v)]
  | (k', v') :: o' =>
      if bool_decide (k' = k) then (k, v) :: o' else (k', v') :: set_prop o' k v
  end.

(** [o.hasOwnProperty(k)] *)
Definition hasOwnProperty (o : list (string * A)) (k : string) : bool :=
  match get_prop o k with Some _ => true | None => false end.

(** [{...a, ...b}] and a run of assignments: the writes of [ws] applied to
    [o] from left to right. *)
Definition assign (o ws : list (string * A)) : list (string * A) :=
  fold_left (fun m kv => set_prop m kv.1 kv.2) ws o.
End Props.

(** [key.startsWith('_')] *)
Definition startsWith_underscore (key : string) : bool :=
  match key with
  | String c _ => bool_decide (String c "" = "_")
  | EmptyString => false
  end.

(** [key.startsWith('_') ? key : `_${key}`] *)
Definition fieldName (key : string) : string :=
  if startsWith_underscore key then key else "_" +:+ key.

(* --------------------------------------------------------------------- *)
(** *** Completions *)

Record JsError := { err_name : string; err_message : string }.

Inductive completion (A : Type) : Type :=
| Normal (a : A)
| Throw (e : JsError).
Arguments Normal {A} a.
Arguments Throw {A} e.

Definition TypeError (msg : string) : JsError :=
  {| err_name := "TypeError"; err_message := msg |}.
Definition ReferenceError (msg : string) : JsError :=
  {| err_name := "ReferenceError"; err_message := msg |}.

(** [Object.entries(v)]: own enumerable string-keyed properties; raises on
    [null] and [undefined]. *)
Definition index_entries (xs : list value) : object :=
  imap (fun i x => (pretty i, x)) xs.

Fixpoint chars (s : string) : list value :=
  match s with
  | EmptyString => []
  | String c s' => VStr (String c "") :: chars s'
  end.

Definition Object_entries (v : value) : completion object :=
  match v with
  | VUndefined | VNull =>
      Throw (TypeError "Cannot convert undefined or null to object")
  | VObj props => Normal props
  | VArr items => Normal (index_entries items)
  | VStr s => Normal (index_entries (chars s))
  | VBool _ | VNum _ | VSeconds _ => Normal []
  end.

(** [{...v}]: as [Object.entries], except that [null] and [undefined]
    spread to nothing. *)
Definition spread (v : value) : object :=
  match Object_entries v with Normal ps => ps | Throw _ => [] end.

(** [v.k] for a data property [k] that no built-in prototype defines:
    raises on [null] and [undefined], is [undefined] when absent. *)
Definition read_prop (v : value) (k : string) : completion value :=
  match v with
  | VUndefined | VNull =>
      Throw (TypeError ("Cannot read properties of undefined (reading '" +:+ k +:+ "')"))
  | _ => Normal (default VUndefined (get_prop (spread v) k))
  end.

(* ===================================================================== *)
(** ** The host platform *)
(* ===================================================================== *)

Class Host := {
  (** [JSON.stringify(v)]: the text, or the exception it raises (a cycle, a
      [toJSON] that raises, a value it cannot serialise). *)
  JSON_stringify : value -> completion string;
  (** [JSON.parse(text)], of which the logger only uses whether it raises. *)
  JSON_parse : string -> completion unit;
  (** [String(v)] on a value that is not already a string. *)
  host_String : value -> string;
  (** [new WebSocket(url)]: [Some e] when the constructor raises [e]. *)
  WebSocket_new : option string -> option JsError;
  (** [socket.send(text)] on the socket of that reference: [Some e] when it
      raises [e]. *)
  WebSocket_send : nat -> string -> option JsError;
  (** [crypto.randomUUID()], by the number of identifiers drawn before. *)
  randomUUID : nat -> string;
  (** The global object: where an identifier that no enclosing scope
      declares is looked up. *)
  globalThis : object
}.

Section Logger.
Context `{Host}.

(** [String(v)] and the conversion of a template literal. *)
Definition String_ (v : value) : string :=
match v with VStr s => s | _ => host_String v end.

(* ===================================================================== *)
(** ** Logger state *)
(* ===================================================================== *)

(** [GELFLogger.LEVELS] *)
Definition LEVELS : list (string * Z) :=
[("EMERGENCY", 0%Z); ("ALERT", 1%Z); ("CRITICAL", 2%Z); ("ERROR", 3%Z);
 ("WARNING", 4%Z); ("NOTICE", 5%Z); ("INFO", 6%Z); ("DEBUG", 7%Z)].

Definition EMERGENCY : Z := 0.
Definition ALERT : Z := 1.
Definition CRITICAL : Z := 2.
Definition ERROR : Z := 3.
Definition WARNING : Z := 4.
Definition NOTICE : Z := 5.
Definition INFO : Z := 6.
Definition DEBUG : Z := 7.

Record Stats := { sent : Z; failed : Z; skipped : Z }.

(** The argument of [_logFailure]. *)
Record FailureRecord := {
f_message : object;
f_reason : string;
f_error : string;
f_endpoint : option string;
f_timestamp : Z
}.

(** The instance fields of [GELFLogger].  [wsConnection] and
    [wsMessageQueue] are references into the heap: two loggers that hold the
    same reference share the socket, resp. the array. *)
Record Logger := {
  log_session_id : string;
  useWebSocket : bool;
  wsEndpoint : option string;
  wsConnection : option nat;
  wsMessageQueue : nat;
  wsConnecting : bool;
  wsReconnectAttempts : Z;
  wsMaxReconnectAttempts : Z;
  endpoint : option string;
  accessId : option string;
  accessSecret : option string;
  host : string;
  facility : string;
  cfContext : object;
  globalFields : object;
  minLevel : Z;
  consoleLog : bool;
  overloadConsole : bool;
  timeout : Z;
  pendingPromises : list nat;
  stats : Stats;
  failedMessages : list FailureRecord;
  maxFailedMessages : Z;
  wsAuthenticated : bool;
  wsAuthTimeout : value;
  _wsAuthTimer : option nat
}.

Definition with_wsConnection (x : option nat) (l : Logger) : Logger :=
  {| log_session_id := log_session_id l; useWebSocket := useWebSocket l;
     wsEndpoint := wsEndpoint l; wsConnection := x;
     wsMessageQueue := wsMessageQueue l; wsConnecting := wsConnecting l;
     wsReconnectAttempts := wsReconnectAttempts l;
     wsMaxReconnectAttempts := wsMaxReconnectAttempts l;
     endpoint := endpoint l; accessId := accessId l;
     accessSecret := accessSecret l; host := host l; facility := facility l;
     cfContext := cfContext l; globalFields := globalFields l;
     minLevel := minLevel l; consoleLog := consoleLog l;
     overloadConsole := overloadConsole l; timeout := timeout l;
     pendingPromises := pendingPromises l; stats := stats l;
     failedMessages := failedMessages l;
     maxFailedMessages := maxFailedMessages l;
     wsAuthenticated := wsAuthenticated l; wsAuthTimeout := wsAuthTimeout l;
     _wsAuthTimer := _wsAuthTimer l |}.
Definition with_wsConnecting (x : bool) (l : Logger) : Logger :=
  {| log_session_id := log_session_id l; useWebSocket := useWebSocket l;
     wsEndpoint := wsEndpoint l; wsConnection := wsConnection l;
     wsMessageQueue := wsMessageQueue l; wsConnecting := x;
     wsReconnectAttempts := wsReconnectAttempts l;
     wsMaxReconnectAttempts := wsMaxReconnectAttempts l;
     endpoint := endpoint l; accessId := accessId l;
     accessSecret := accessSecret l; host := host l; facility := facility l;
     cfContext := cfContext l; globalFields := globalFields l;
     minLevel := minLevel l; consoleLog := consoleLog l;
     overloadConsole := overloadConsole l; timeout := timeout l;
     pendingPromises := pendingPromises l; stats := stats l;
     failedMessages := failedMessages l;
     maxFailedMessages := maxFailedMessages l;
     wsAuthenticated := wsAuthenticated l; wsAuthTimeout := wsAuthTimeout l;
     _wsAuthTimer := _wsAuthTimer l |}.
Definition with_wsReconnectAttempts (x : Z) (l : Logger) : Logger :=
  {| log_session_id := log_session_id l; useWebSocket := useWebSocket l;
     wsEndpoint := wsEndpoint l; wsConnection := wsConnection l;
     wsMessageQueue := wsMessageQueue l; wsConnecting := wsConnecting l;
     wsReconnectAttempts := x;
     wsMaxReconnectAttempts := wsMaxReconnectAttempts l;
     endpoint := endpoint l; accessId := accessId l;
     accessSecret := accessSecret l; host := host l; facility := facility l;
     cfContext := cfContext l; globalFields := globalFields l;
     minLevel := minLevel l; consoleLog := consoleLog l;
     overloadConsole := overloadConsole l; timeout := timeout l;
     pendingPromises := pendingPromises l; stats := stats l;
     failedMessages := failedMessages l;
     maxFailedMessages := maxFailedMessages l;
     wsAuthenticated := wsAuthenticated l; wsAuthTimeout := wsAuthTimeout l;
     _wsAuthTimer := _wsAuthTimer l |}.
Definition with_accessId (x : option string) (l : Logger) : Logger :=
  {| log_session_id := log_session_id l; useWebSocket := useWebSocket l;
     wsEndpoint := wsEndpoint l; wsConnection := wsConnection l;
     wsMessageQueue := wsMessageQueue l; wsConnecting := wsConnecting l;
     wsReconnectAttempts := wsReconnectAttempts l;
     wsMaxReconnectAttempts := wsMaxReconnectAttempts l;
     endpoint := endpoint l; accessId := x; accessSecret := accessSecret l;
     host := host l; facility := facility l; cfContext := cfContext l;
     globalFields := globalFields l; minLevel := minLevel l;
     consoleLog := consoleLog l; overloadConsole := overloadConsole l;
     timeout := timeout l; pendingPromises := pendingPromises l;
     stats := stats l; failedMessages := failedMessages l;
     maxFailedMessages := maxFailedMessages l;
     wsAuthenticated := wsAuthenticated l; wsAuthTimeout := wsAuthTimeout l;
     _wsAuthTimer := _wsAuthTimer l |}.
Definition with_accessSecret (x : option string) (l : Logger) : Logger :=
  {| log_session_id := log_session_id l; useWebSocket := useWebSocket l;
     wsEndpoint := wsEndpoint l; wsConnection := wsConnection l;
     wsMessageQueue := wsMessageQueue l; wsConnecting := wsConnecting l;
     wsReconnectAttempts := wsReconnectAttempts l;
     wsMaxReconnectAttempts := wsMaxReconnectAttempts l;
     endpoint := endpoint l; accessId := accessId l; accessSecret := x;
     host := host l; facility := facility l; cfContext := cfContext l;
     globalFields := globalFields l; minLevel := minLevel l;
     consoleLog := consoleLog l; overloadConsole := overloadConsole l;
     timeout := timeout l; pendingPromises := pendingPromises l;
     stats := stats l; failedMessages := failedMessages l;
     maxFailedMessages := maxFailedMessages l;
     wsAuthenticated := wsAuthenticated l; wsAuthTimeout := wsAuthTimeout l;
     _wsAuthTimer := _wsAuthTimer l |}.
Definition with_pendingPromises (x : list nat) (l : Logger) : Logger :=
  {| log_session_id := log_session_id l; useWebSocket := useWebSocket l;
     wsEndpoint := wsEndpoint l; wsConnection := wsConnection l;
     wsMessageQueue := wsMessageQueue l; wsConnecting := wsConnecting l;
     wsReconnectAttempts := wsReconnectAttempts l;
     wsMaxReconnectAttempts := wsMaxReconnectAttempts l;
     endpoint := endpoint l; accessId := accessId l;
     accessSecret := accessSecret l; host := host l; facility := facility l;
     cfContext := cfContext l; globalFields := globalFields l;
     minLevel := minLevel l; consoleLog := consoleLog l;
     overloadConsole := overloadConsole l; timeout := timeout l;
     pendingPromises := x; stats := stats l;
     failedMessages := failedMessages l;
     maxFailedMessages := maxFailedMessages l;
     wsAuthenticated := wsAuthenticated l; wsAuthTimeout := wsAuthTimeout l;
     _wsAuthTimer := _wsAuthTimer l |}.
Definition with_stats (x : Stats) (l : Logger) : Logger :=
  {| log_session_id := log_session_id l; useWebSocket := useWebSocket l;
     wsEndpoint := wsEndpoint l; wsConnection := wsConnection l;
     wsMessageQueue := wsMessageQueue l; wsConnecting := wsConnecting l;
     wsReconnectAttempts := wsReconnectAttempts l;
     wsMaxReconnectAttempts := wsMaxReconnectAttempts l;
     endpoint := endpoint l; accessId := accessId l;
     accessSecret := accessSecret l; host := host l; facility := facility l;
     cfContext := cfContext l; globalFields := globalFields l;
     minLevel := minLevel l; consoleLog := consoleLog l;
     overloadConsole := overloadConsole l; timeout := timeout l;
     pendingPromises := pendingPromises l; stats := x;
     failedMessages := failedMessages l;
     maxFailedMessages := maxFailedMessages l;
     wsAuthenticated := wsAuthenticated l; wsAuthTimeout := wsAuthTimeout l;
     _wsAuthTimer := _wsAuthTimer l |}.
Definition with_failedMessages (x : list FailureRecord) (l : Logger) : Logger :=
  {| log_session_id := log_session_id l; useWebSocket := useWebSocket l;
     wsEndpoint := wsEndpoint l; wsConnection := wsConnection l;
     wsMessageQueue := wsMessageQueue l; wsConnecting := wsConnecting l;
     wsReconnectAttempts := wsReconnectAttempts l;
     wsMaxReconnectAttempts := wsMaxReconnectAttempts l;
     endpoint := endpoint l; accessId := accessId l;
     accessSecret := accessSecret l; host := host l; facility := facility l;
     cfContext := cfContext l; globalFields := globalFields l;
     minLevel := minLevel l; consoleLog := consoleLog l;
     overloadConsole := overloadConsole l; timeout := timeout l;
     pendingPromises := pendingPromises l; stats := stats l;
     failedMessages := x; maxFailedMessages := maxFailedMessages l;
     wsAuthenticated := wsAuthenticated l; wsAuthTimeout := wsAuthTimeout l;
     _wsAuthTimer := _wsAuthTimer l |}.
Definition with_wsAuthenticated (x : bool) (l : Logger) : Logger :=
  {| log_session_id := log_session_id l; useWebSocket := useWebSocket l;
     wsEndpoint := wsEndpoint l; wsConnection := wsConnection l;
     wsMessageQueue := wsMessageQueue l; wsConnecting := wsConnecting l;
     wsReconnectAttempts := wsReconnectAttempts l;
     wsMaxReconnectAttempts := wsMaxReconnectAttempts l;
     endpoint := endpoint l; accessId := accessId l;
     accessSecret := accessSecret l; host := host l; facility := facility l;
     cfContext := cfContext l; globalFields := globalFields l;
     minLevel := minLevel l; consoleLog := consoleLog l;
     overloadConsole := overloadConsole l; timeout := timeout l;
     pendingPromises := pendingPromises l; stats := stats l;
     failedMessages := failedMessages l;
     maxFailedMessages := maxFailedMessages l; wsAuthenticated := x;
     wsAuthTimeout := wsAuthTimeout l; _wsAuthTimer := _wsAuthTimer l |}.
Definition with_wsAuthTimeout (x : value) (l : Logger) : Logger :=
  {| log_session_id := log_session_id l; useWebSocket := useWebSocket l;
     wsEndpoint := wsEndpoint l; wsConnection := wsConnection l;
     wsMessageQueue := wsMessageQueue l; wsConnecting := wsConnecting l;
     wsReconnectAttempts := wsReconnectAttempts l;
     wsMaxReconnectAttempts := wsMaxReconnectAttempts l;
     endpoint := endpoint l; accessId := accessId l;
     accessSecret := accessSecret l; host := host l; facility := facility l;
     cfContext := cfContext l; globalFields := globalFields l;
     minLevel := minLevel l; consoleLog := consoleLog l;
     overloadConsole := overloadConsole l; timeout := timeout l;
     pendingPromises := pendingPromises l; stats := stats l;
     failedMessages := failedMessages l;
     maxFailedMessages := maxFailedMessages l;
     wsAuthenticated := wsAuthenticated l; wsAuthTimeout := x;
     _wsAuthTimer := _wsAuthTimer l |}.
Definition with_wsAuthTimer (x : option nat) (l : Logger) : Logger :=
  {| log_session_id := log_session_id l; useWebSocket := useWebSocket l;
     wsEndpoint := wsEndpoint l; wsConnection := wsConnection l;
     wsMessageQueue := wsMessageQueue l; wsConnecting := wsConnecting l;
     wsReconnectAttempts := wsReconnectAttempts l;
     wsMaxReconnectAttempts := wsMaxReconnectAttempts l;
     endpoint := endpoint l; accessId := accessId l;
     accessSecret := accessSecret l; host := host l; facility := facility l;
     cfContext := cfContext l; globalFields := globalFields l;
     minLevel := minLevel l; consoleLog := consoleLog l;
     overloadConsole := overloadConsole l; timeout := timeout l;
     pendingPromises := pendingPromises l; stats := stats l;
     failedMessages := failedMessages l;
     maxFailedMessages := maxFailedMessages l;
     wsAuthenticated := wsAuthenticated l; wsAuthTimeout := wsAuthTimeout l;
     _wsAuthTimer := x |}.

Definition with_sent (x : Z) (s : Stats) : Stats :=
  {| sent := x; failed := failed s; skipped := skipped s |}.
Definition with_failed (x : Z) (s : Stats) : Stats :=
  {| sent := sent s; failed := x; skipped := skipped s |}.
Definition with_skipped (x : Z) (s : Stats) : Stats :=
  {| sent := sent s; failed := failed s; skipped := x |}.

(** A WebSocket object: its [readyState] (0 connecting, 1 open, 2 closing,
    3 closed) and which of its event handlers have been assigned. *)
Record Socket := {
  readyState : Z;
  onopen : bool;
  onclose : bool;
  onerror : bool;
  onmessage : bool
}.

Definition with_readyState (x : Z) (c : Socket) : Socket :=
  {| readyState := x; onopen := onopen c; onclose := onclose c;
     onerror := onerror c; onmessage := onmessage c |}.
Definition with_onopen (x : bool) (c : Socket) : Socket :=
  {| readyState := readyState c; onopen := x; onclose := onclose c;
     onerror := onerror c; onmessage := onmessage c |}.
Definition with_onclose (x : bool) (c : Socket) : Socket :=
  {| readyState := readyState c; onopen := onopen c; onclose := x;
     onerror := onerror c; onmessage := onmessage c |}.
Definition with_onerror (x : bool) (c : Socket) : Socket :=
  {| readyState := readyState c; onopen := onopen c; onclose := onclose c;
     onerror := x; onmessage := onmessage c |}.
Definition with_onmessage (x : bool) (c : Socket) : Socket :=
  {| readyState := readyState c; onopen := onopen c; onclose := onclose c;
     onerror := onerror c; onmessage := x |}.

(** What a timer runs when it fires. *)
Inductive callback :=
| CbAbort (promise : nat)      (* () => controller.abort() *)
| CbAuthTimeout                (* the authentication timer of onopen *)
| CbReconnect.                 (* () => this._connectWebSocket() *)

(** The I/O the logger performs, in the order performed. *)
Inductive effect :=
| ESetTimeout (id : nat) (cb : callback) (delay : value)
| EClearTimeout (id : option nat)
| EFetch (promise : nat) (url : string) (headers : list (string * string))
         (body : string)
| EWebSocket (socket : nat) (url : option string)
| ESocketSend (socket : nat) (payload : string)
| EConsole (method : string) (text : string)
| ERandomUUID.

(** Everything outside one logger instance: the clock read by [Date.now()],
    the heap of arrays and sockets, the I/O trace, the requests whose
    [AbortController] has been aborted, and the [console] methods that have
    been replaced. *)
Record World := {
  clock : Z;
  arrays : list (list object);
  sockets : list Socket;
  trace : list effect;
  uuids : nat;
  next_timer : nat;
  next_promise : nat;
  aborted : list nat;
  console_patched : list string
}.

Definition with_arrays (x : list (list object)) (w : World) : World :=
  {| clock := clock w; arrays := x; sockets := sockets w; trace := trace w;
     uuids := uuids w; next_timer := next_timer w;
     next_promise := next_promise w; aborted := aborted w;
     console_patched := console_patched w |}.
Definition with_sockets (x : list Socket) (w : World) : World :=
  {| clock := clock w; arrays := arrays w; sockets := x; trace := trace w;
     uuids := uuids w; next_timer := next_timer w;
     next_promise := next_promise w; aborted := aborted w;
     console_patched := console_patched w |}.
Definition with_trace (x : list effect) (w : World) : World :=
  {| clock := clock w; arrays := arrays w; sockets := sockets w; trace := x;
     uuids := uuids w; next_timer := next_timer w;
     next_promise := next_promise w; aborted := aborted w;
     console_patched := console_patched w |}.
Definition with_next_timer (x : nat) (w : World) : World :=
  {| clock := clock w; arrays := arrays w; sockets := sockets w;
     trace := trace w; uuids := uuids w; next_timer := x;
     next_promise := next_promise w; aborted := aborted w;
     console_patched := console_patched w |}.
Definition with_next_promise (x : nat) (w : World) : World :=
  {| clock := clock w; arrays := arrays w; sockets := sockets w;
     trace := trace w; uuids := uuids w; next_timer := next_timer w;
     next_promise := x; aborted := aborted w;
     console_patched := console_patched w |}.
Definition with_aborted (x : list nat) (w : World) : World :=
  {| clock := clock w; arrays := arrays w; sockets := sockets w;
     trace := trace w; uuids := uuids w; next_timer := next_timer w;
     next_promise := next_promise w; aborted := x;
     console_patched := console_patched w |}.

Record State := { this : Logger; world : World }.

(* ===================================================================== *)
(** ** Statements with state and exceptions *)
(* ===================================================================== *)

(** A statement runs on the logger [this] and the world; it completes
    normally or raises, and the state it reached is kept either way. *)
Definition M (A : Type) : Type := State -> completion A * State.

Definition ret {A} (a : A) : M A := fun st => (Normal a, st).

Definition throw {A} (e : JsError) : M A := fun st => (Throw e, st).

Definition bind {A B} (c : M A) (k : A -> M B) : M B :=
  fun st =>
    match c st with
    | (Normal a, st') => k a st'
    | (Throw e, st') => (Throw e, st')
    end.

(** [try { c } catch (error) { h error }] *)
Definition try_catch {A} (c : M A) (h : JsError -> M A) : M A :=
  fun st =>
    match c st with
    | (Normal a, st') => (Normal a, st')
    | (Throw e, st') => h e st'
    end.

Notation "'let*' x ':=' c 'in' k" := (bind c (fun x => k))
  (at level 10, x pattern, c at level 100, k at level 200).
Notation "c ';;;' k" := (bind c (fun _ => k))
  (at level 100, k at level 200, right associativity).

Definition lift {A} (c : completion A) : M A := fun st => (c, st).

Definition get_this : M Logger := fun st => (Normal (this st), st).

Definition get_world : M World := fun st => (Normal (world st), st).

Definition update (f : Logger -> Logger) : M unit :=
  fun st => (Normal tt, {| this := f (this st); world := world st |}).

Definition update_world (f : World -> World) : M unit :=
  fun st => (Normal tt, {| this := this st; world := f (world st) |}).

Definition when (b : bool) (c : M unit) : M unit := if b then c else ret tt.

Definition emit (e : effect) : M unit :=
  update_world (fun w => with_trace (trace w ++ [e]) w).

(** [Date.now()] *)
Definition Date_now : M Z := fun st => (Normal (clock (world st)), st).

(** [setTimeout(cb, delay)] *)
Definition setTimeout (cb : callback) (delay : value) : M nat :=
  let* w := get_world in
  let id := next_timer w in
  update_world (with_next_timer (S id));;;
  emit (ESetTimeout id cb delay);;;
  ret id.

Definition clearTimeout (id : option nat) : M unit := emit (EClearTimeout id).

(** [this.consoleLog && !this.overloadConsole] *)
Definition verbose (l : Logger) : bool := consoleLog l && negb (overloadConsole l).

(** [if (this.consoleLog && !this.overloadConsole) console.method(text)] *)
Definition console_if_verbose (method text : string) : M unit :=
  let* l := get_this in
  when (verbose l) (emit (EConsole method text)).

(** [this.stats.sent++], [this.stats.failed++], [this.stats.skipped++] *)
Definition incr_sent : M unit :=
  update (fun l => with_stats (with_sent (sent (stats l) + 1) (stats l)) l).
Definition incr_failed : M unit :=
  update (fun l => with_stats (with_failed (failed (stats l) + 1) (stats l)) l).
Definition incr_skipped : M unit :=
  update (fun l => with_stats (with_skipped (skipped (stats l) + 1) (stats l)) l).

(** The array behind a queue reference, and its replacement after
    [push], [shift] or [unshift]. *)
Definition get_queue (q : nat) : M (list object) :=
  fun st => (Normal (default [] (arrays (world st) !! q)), st).

Definition set_queue (q : nat) (items : list object) : M unit :=
  update_world (fun w => with_arrays (<[q := items]> (arrays w)) w).

Definition socket_state (w : World) (c : nat) : Z :=
  match sockets w !! c with Some s => readyState s | None => 3 end.

Definition update_socket (c : nat) (f : Socket -> Socket) : M unit :=
  update_world (fun w =>
    match sockets w !! c with
    | Some s => with_sockets (<[c := f s]> (sockets w)) w
    | None => w
    end).

(** [socket.send(text)] *)
Definition socket_send (c : option nat) (text : string) : M unit :=
  match c with
  | None => throw (TypeError "Cannot read properties of null (reading 'send')")
  | Some c =>
      match WebSocket_send c text with
      | Some e => throw e
      | None => emit (ESocketSend c text)
      end
  end.

(** [new WebSocket(url)]: a fresh socket, connecting, without handlers. *)
Definition new_WebSocket (url : option string) : M nat :=
  match WebSocket_new url with
  | Some e => throw e
  | None =>
      let* w := get_world in
      let c := length (sockets w) in
      update_world (with_sockets (sockets w ++
        [{| readyState := 0; onopen := false; onclose := false;
            onerror := false; onmessage := false |}]));;;
      emit (EWebSocket c url);;;
      ret c
  end.

(** An identifier that no enclosing scope declares resolves in the global
    object, and raises when it is not there either. *)
Definition lookup_identifier (name : string) : M value :=
  match get_prop globalThis name with
  | Some v => ret v
  | None => throw (ReferenceError (name +:+ " is not defined"))
  end.

(** [v?.k] *)
Definition optional_chain (v : value) (k : string) : value :=
  if is_nullish v then VUndefined else default VUndefined (get_prop (spread v) k).

Definition opt_value (o : option string) : value :=
  match o with Some s => VStr s | None => VUndefined end.

(* ===================================================================== *)
(** ** _buildGELFMessage *)
(* ===================================================================== *)

(** The reserved GELF fields that a custom field may not name. *)
Definition reserved : list string :=
  ["id"; "timestamp"; "version"; "level"; "host"; "short_message"; "full_message"].

Definition is_reserved (key : string) : bool := bool_decide (key ∈ reserved).

(** The object literal the builder starts from. *)
Definition base_message (l : Logger) (now level : Z) (shortMessage : value)
  : object :=
  [("version", VStr "1.1");
   ("host", VStr (host l));
   ("short_message", VStr (String_ shortMessage));
   ("timestamp", VSeconds now);
   ("level", VNum level);
   ("facility", VStr (facility l));
   ("_log_session_id", VStr (log_session_id l))].

(** [try { JSON.stringify(v) } catch (e) { String(v) }] *)
Definition stringify_or_String (v : value) : string :=
  match JSON_stringify v with
  | Normal text => text
  | Throw _ => String_ v
  end.

(** [if (fullMessage) { ... message.full_message = String(fullMessage) }] *)
Definition add_full_message (fullMessage : value) (message : object) : object :=
  if truthy fullMessage then
    let fullMessage :=
      match typeof fullMessage with
      | TString => fullMessage
      | _ => VStr (stringify_or_String fullMessage)
      end in
    set_prop message "full_message" (VStr (String_ fullMessage))
  else message.

(** Body of the loop over [Object.entries(this.cfContext)]. *)
Definition add_context_field (message : object) (entry : string * value)
  : object :=
  let '(key, v) := entry in
  if negb (is_nullish v) then set_prop message (fieldName key) v else message.

(** Body of the loop over [Object.entries(this.globalFields)]. *)
Definition add_global_field (message : object) (entry : string * value)
  : object :=
  let '(key, v) := entry in
  set_prop message (fieldName key) v.

(** What the loop over the custom fields stores for a value. *)
Definition custom_value (v : value) : value :=
  if is_nullish v then VNull
  else if is_object_type v then VStr (stringify_or_String v)
  else v.

(** Body of the loop over [Object.entries(customFields)]. *)
Definition add_custom_field (message : object) (entry : string * value)
  : object :=
  let '(key, v) := entry in
  if is_reserved key then message
  else set_prop message (fieldName key) (custom_value v).

Definition _buildGELFMessage (l : Logger) (now level : Z)
    (shortMessage fullMessage customFields : value) : completion object :=
  let fullMessage := default_arg VNull fullMessage in
  let customFields := default_arg (VObj []) customFields in
  let message := base_message l now level shortMessage in
  let message := add_full_message fullMessage message in
  let message := fold_left add_context_field (cfContext l) message in
  let message := fold_left add_global_field (globalFields l) message in
  match Object_entries customFields with
  | Throw e => Throw e
  | Normal entries => Normal (fold_left add_custom_field entries message)
  end.

(* ===================================================================== *)
(** ** Failure history *)
(* ===================================================================== *)

Definition _logFailure (failureInfo : FailureRecord) : M unit :=
  update (fun l => with_failedMessages (failedMessages l ++ [failureInfo]) l);;;
  let* l := get_this in
  when (Z.of_nat (length (failedMessages l)) >? maxFailedMessages l)%Z
       (update (fun l => with_failedMessages (tail (failedMessages l)) l));;;
  console_if_verbose "error" "GELFLogger: Failed to emit log".

(** [filter] runs its predicate synchronously, and the callbacks that
    would clear [isPending] run later: every promise is kept. *)
Definition _cleanupPromises : M unit :=
  update (fun l =>
    with_pendingPromises (filter (fun _ => True) (pendingPromises l)) l).

(* ===================================================================== *)
(** ** Persistent-stream transport *)
(* ===================================================================== *)

(** The [while] loop of [_processWebSocketQueue], on the array contents
    [queue] found behind [q]. *)
Fixpoint drain (c : option nat) (q : nat) (queue : list object) : M unit :=
  match queue with
  | [] => ret tt
  | message :: rest =>
      set_queue q rest;;;
      let* continue :=
        try_catch
          (let* text := lift (JSON_stringify (VObj message)) in
           socket_send c text;;;
           incr_sent;;;
           ret true)
          (fun error =>
           incr_failed;;;
           let* now := Date_now in
           _logFailure {| f_message := message; f_reason := "ws_send_error";
                          f_error := err_message error; f_endpoint := None;
                          f_timestamp := now |};;;
           set_queue q (message :: rest);;;
           ret false) in
      if continue : bool then drain c q rest else ret tt
  end.

(** [this.wsConnection && this.wsConnection.readyState === 1] *)
Definition connection_open (l : Logger) (w : World) : bool :=
  match wsConnection l with
  | Some c => (socket_state w c =? 1)%Z
  | None => false
  end.

Definition _processWebSocketQueue : M unit :=
  let* l := get_this in
  let* w := get_world in
  if negb (connection_open l w) then ret tt
  else
    let* queue := get_queue (wsMessageQueue l) in
    drain (wsConnection l) (wsMessageQueue l) queue.

(** The handshake message of [onopen]. *)
Definition authMsg (l : Logger) : value :=
  VObj [("type", VStr "auth");
        ("access_id", opt_value (accessId l));
        ("access_secret", opt_value (accessSecret l));
        ("log_session_id", VStr (log_session_id l))].

(** The callback of the authentication timer. *)
Definition auth_timer_fired : M unit :=
  let* l := get_this in
  if negb (wsAuthenticated l) then
    console_if_verbose "warn" "GELFLogger: WebSocket auth timeout";;;
    _processWebSocketQueue
  else ret tt.

(** [this.wsConnection.onopen] *)
Definition onopen_handler : M unit :=
  update (with_wsConnecting false);;;
  update (with_wsReconnectAttempts 0);;;
  console_if_verbose "log" "GELFLogger: WebSocket connected";;;
  update (with_wsAuthenticated false);;;
  let* l := get_this in
  if str_truthy (accessId l) && str_truthy (accessSecret l) then
    try_catch
      (let* text := lift (JSON_stringify (authMsg l)) in
       socket_send (wsConnection l) text;;;
       (if negb (truthy (wsAuthTimeout l)) then
          let* config := lookup_identifier "config" in
          let configured := optional_chain config "wsAuthTimeout" in
          update (with_wsAuthTimeout
                    (if truthy configured then configured else VNum 5000))
        else ret tt);;;
       let* l := get_this in
       let* timer := setTimeout CbAuthTimeout (wsAuthTimeout l) in
       update (with_wsAuthTimer (Some timer)))
      (fun e => _processWebSocketQueue)
  else _processWebSocketQueue.

(** [this.wsConnection.onclose] *)
Definition onclose_handler : M unit :=
  update (with_wsConnecting false);;;
  console_if_verbose "log" "GELFLogger: WebSocket closed";;;
  let* l := get_this in
  if (wsReconnectAttempts l <? wsMaxReconnectAttempts l)%Z then
    update (with_wsReconnectAttempts (wsReconnectAttempts l + 1));;;
    let* l := get_this in
    let delay := Z.min (1000 * 2 ^ wsReconnectAttempts l) 30000 in
    let* _ := setTimeout CbReconnect (VNum delay) in
    ret tt
  else ret tt.

(** [this.wsConnection.onerror] *)
Definition onerror_handler : M unit :=
  update (with_wsConnecting false);;;
  console_if_verbose "error" "GELFLogger: WebSocket error:".

Definition _connectWebSocket : M unit :=
  let* l := get_this in
  if wsConnecting l then ret tt
  else
    update (with_wsConnecting true);;;
    try_catch
      (let* c := new_WebSocket (wsEndpoint l) in
       update (with_wsConnection (Some c));;;
       update_socket c (with_onopen true);;;
       update_socket c (with_onclose true);;;
       update_socket c (with_onerror true))
      (fun error =>
       update (with_wsConnecting false);;;
       console_if_verbose "error" "GELFLogger: WebSocket connection failed:").

Definition _sendWebSocket (gelfMessage : object) : M unit :=
  let* l := get_this in
  if negb (str_truthy (wsEndpoint l)) then
    incr_failed;;;
    let* now := Date_now in
    _logFailure {| f_message := gelfMessage; f_reason := "no_ws_endpoint";
                   f_error := "No WebSocket endpoint configured";
                   f_endpoint := None; f_timestamp := now |}
  else
    let* queue := get_queue (wsMessageQueue l) in
    set_queue (wsMessageQueue l) (queue ++ [gelfMessage]);;;
    let* w := get_world in
    if connection_open l w then _processWebSocketQueue
    else
      match wsConnection l with
      | None => _connectWebSocket
      | Some c =>
          if (socket_state w c =? 3)%Z then _connectWebSocket else ret tt
      end.

(** The handler that [_setupConsoleOverload] would assign to an
    [onmessage].  It is an arrow function of a static method: its [this] is
    the class, so it reads and writes no instance field, and its call of
    [this._processWebSocketQueue], which the class does not have, raises
    inside the handler's own [try]. *)
Definition static_onmessage (data : value) : M unit := ret tt.

(** A message event on socket [c] runs the socket's [onmessage] handler if
    one has been assigned. *)
Definition message_event (c : nat) (data : value) : M unit :=
  let* w := get_world in
  match sockets w !! c with
  | Some s => if onmessage s then static_onmessage data else ret tt
  | None => ret tt
  end.

(* ===================================================================== *)
(** ** One-shot transport *)
(* ===================================================================== *)

(** A settled [fetch]: the fields of the response the logger reads. *)
Record Response := { ok : bool; status : value; statusText : value }.

Definition request_headers (l : Logger) : list (string * string) :=
  [("Content-Type", "application/json"); ("Accept", "application/json")] ++
  (if str_truthy (accessId l) && str_truthy (accessSecret l) then
     [("CF-Access-Client-Id", default "" (accessId l));
      ("CF-Access-Client-Secret", default "" (accessSecret l))]
   else []).

Definition _send (gelfMessage : object) : M unit :=
  let* l := get_this in
  if useWebSocket l then _sendWebSocket gelfMessage
  else if negb (str_truthy (endpoint l)) then
    incr_failed;;;
    let* now := Date_now in
    _logFailure {| f_message := gelfMessage; f_reason := "no_endpoint";
                   f_error := "No GELF endpoint configured";
                   f_endpoint := None; f_timestamp := now |}
  else
    let* w := get_world in
    let promise := next_promise w in
    let* timeoutId := setTimeout (CbAbort promise) (VNum (timeout l)) in
    let headers := request_headers l in
    let* body := lift (JSON_stringify (VObj gelfMessage)) in
    update_world (with_next_promise (S promise));;;
    emit (EFetch promise (default "" (endpoint l)) headers body);;;
    update (fun l => with_pendingPromises (pendingPromises l ++ [promise]) l);;;
    let* l := get_this in
    when (100 <? Z.of_nat (length (pendingPromises l)))%Z _cleanupPromises.

(** The timer callback [() => controller.abort()] of request [promise]. *)
Definition abort_fired (promise : nat) : M unit :=
  update_world (fun w => with_aborted (promise :: aborted w) w).

(** The [.then] callback of the request, on the response received. *)
Definition send_then (gelfMessage : object) (timeoutId : nat)
    (response : Response) : M unit :=
  clearTimeout (Some timeoutId);;;
  if ok response then incr_sent
  else
    incr_failed;;;
    let* l := get_this in
    let* now := Date_now in
    _logFailure {| f_message := gelfMessage; f_reason := "http_error";
                   f_error := "HTTP " +:+ String_ (status response) +:+ " "
                              +:+ String_ (statusText response);
                   f_endpoint := endpoint l; f_timestamp := now |};;;
    console_if_verbose "warn"
      ("GELFLogger: HTTP " +:+ String_ (status response) +:+ " from "
       +:+ default "" (endpoint l)).

(** The [.catch] callback of the request, on the rejection [error]. *)
Definition send_catch (gelfMessage : object) (timeoutId : nat)
    (error : JsError) : M unit :=
  clearTimeout (Some timeoutId);;;
  incr_failed;;;
  let* l := get_this in
  let is_abort := bool_decide (err_name error = "AbortError") in
  let reason := if is_abort then "timeout" else "network_error" in
  let errorMessage :=
    if is_abort
    then "Request timeout after " +:+ String_ (VNum (timeout l)) +:+ "ms"
    else err_message error in
  let* now := Date_now in
  _logFailure {| f_message := gelfMessage; f_reason := reason;
                 f_error := errorMessage; f_endpoint := endpoint l;
                 f_timestamp := now |};;;
  let* l := get_this in
  when (verbose l && negb is_abort)
       (emit (EConsole "warn" ("GELFLogger: Send failed: " +:+ errorMessage))).

(* ===================================================================== *)
(** ** _log and the public logging methods *)
(* ===================================================================== *)

(** [Object.keys(LEVELS).find(key => LEVELS[key] === level)], as it prints
    in a template literal. *)
Definition levelName (level : Z) : string :=
  match find (fun kv => bool_decide (kv.2 = level)) LEVELS with
  | Some kv => kv.1
  | None => "undefined"
  end.

(** [try { JSON.parse(v); ... JSON.stringify(v) } catch (e) { `${v}` }] *)
Definition console_text (v : value) : string :=
  match JSON_parse (String_ v) with
  | Normal _ => stringify_or_String v
  | Throw _ => String_ v
  end.

Definition newline : string := String (Ascii.ascii_of_nat 10) "".

Definition console_mirror (level : Z) (shortMessage fullMessage : value)
  : M unit :=
  let logMessage := "[" +:+ levelName level +:+ "]" in
  let logMessage := logMessage +:+ " " +:+ console_text shortMessage in
  let logMessage :=
    if truthy fullMessage
    then logMessage +:+ newline +:+ console_text fullMessage
    else logMessage in
  emit (EConsole "log" logMessage).

(** The body of the [try] block of [_log]. *)
Definition _log_try (level : Z) (shortMessage fullMessage customFields : value)
  : M unit :=
  let* l := get_this in
  if (level >? minLevel l)%Z then incr_skipped
  else
    let* now := Date_now in
    let* gelfMessage :=
      lift (_buildGELFMessage l now level shortMessage fullMessage customFields) in
    _send gelfMessage;;;
    let* l := get_this in
    when (verbose l) (console_mirror level shortMessage fullMessage).

(** The [catch] block of [_log]. *)
Definition _log_catch (error : JsError) : M unit :=
  incr_failed;;;
  console_if_verbose "error"
    ("GELFLogger: Internal error: " +:+ err_message error).

Definition _log (level : Z) (shortMessage fullMessage customFields : value)
  : M unit :=
  let fullMessage := default_arg VNull fullMessage in
  let customFields := default_arg (VObj []) customFields in
  try_catch (_log_try level shortMessage fullMessage customFields) _log_catch.

Definition emergency (shortMessage fullMessage customFields : value) : M unit :=
  _log EMERGENCY shortMessage (default_arg VNull fullMessage)
       (default_arg (VObj []) customFields).

Definition alert (shortMessage fullMessage customFields : value) : M unit :=
  _log ALERT shortMessage (default_arg VNull fullMessage)
       (default_arg (VObj []) customFields).

Definition critical (shortMessage fullMessage customFields : value) : M unit :=
  _log CRITICAL shortMessage (default_arg VNull fullMessage)
       (default_arg (VObj []) customFields).

Definition error (shortMessage fullMessage customFields : value) : M unit :=
  _log ERROR shortMessage (default_arg VNull fullMessage)
       (default_arg (VObj []) customFields).

Definition warning (shortMessage fullMessage customFields : value) : M unit :=
  _log WARNING shortMessage (default_arg VNull fullMessage)
       (default_arg (VObj []) customFields).

Definition warn (shortMessage fullMessage customFields : value) : M unit :=
  warning shortMessage (default_arg VNull fullMessage)
          (default_arg (VObj []) customFields).

Definition notice (shortMessage fullMessage customFields : value) : M unit :=
  _log NOTICE shortMessage (default_arg VNull fullMessage)
       (default_arg (VObj []) customFields).

Definition info (shortMessage fullMessage customFields : value) : M unit :=
  _log INFO shortMessage (default_arg VNull fullMessage)
       (default_arg (VObj []) customFields).

Definition log (shortMessage fullMessage customFields : value) : M unit :=
  info shortMessage (default_arg VNull fullMessage)
       (default_arg (VObj []) customFields).

Definition debug (shortMessage fullMessage customFields : value) : M unit :=
  _log DEBUG shortMessage (default_arg VNull fullMessage)
       (default_arg (VObj []) customFields).

(** [exception(error, customFields = {})]: the object literal reads
    [error.name], [error.message] and [error.stack] before [_log] is
    entered. *)
Definition exception (error customFields : value) : M unit :=
  let customFields := default_arg (VObj []) customFields in
  let* name := lift (read_prop error "name") in
  let* message := lift (read_prop error "message") in
  let* stack := lift (read_prop error "stack") in
  let fields :=
    assign (spread customFields)
           [("exception_type", name); ("exception_message", message);
            ("exception_stack", stack)] in
  _log ERROR message stack (VObj fields).

(* ===================================================================== *)
(** ** Construction and child loggers *)
(* ===================================================================== *)

(** [config.env] *)
Record Env := {
  GELF_LOGGING_URL : option string;
  WORKER_NAME : option string;
  ENVIRONMENT : option string;
  FUNCTION_NAME : option string;
  LOG_SESSION_ID : option string;
  ACCESS_ID : option string;
  ACCESS_SECRET : option string
}.

(** The constructor's [config]; [None] is an absent property.
    [c_request_context] stands for [config.request]: the properties that the
    constructor copies from the request into [cfContext], in order (none
    without a request). *)
Record Config := {
  c_env : option Env;
  c_request_context : object;
  c_log_session_id : option string;
  c_endpoint : option string;
  c_useWebSocket : option bool;
  c_wsEndpoint : option string;
  c_wsMaxReconnectAttempts : option Z;
  c_host : option string;
  c_facility : option string;
  c_globalFields : option object;
  c_minLevel : option Z;
  c_consoleLog : option bool;
  c_overloadConsole : option bool;
  c_timeout : option Z;
  c_maxFailedMessages : option Z
}.






(* ===================================================================== *)
(** ** Statistics and failure history accessors *)
(* ===================================================================== *)

Record StatsView := {
  v_sent : Z; v_failed : Z; v_skipped : Z; failedMessagesCount : Z
}.

Definition getStats (l : Logger) : StatsView :=
  {| v_sent := sent (stats l); v_failed := failed (stats l);
     v_skipped := skipped (stats l);
     failedMessagesCount := Z.of_nat (length (failedMessages l)) |}.

(** [xs.slice(start)] for an integer [start]. *)
Definition slice {A} (start : Z) (xs : list A) : list A :=
  let len := Z.of_nat (length xs) in
  let from := if (start <? 0)%Z then Z.max (len + start) 0 else Z.min start len in
  drop (Z.to_nat from) xs.

(** [getFailedMessages(limit = null)], for an absent or integer limit. *)
Definition getFailedMessages (limit : option Z) (l : Logger)
  : list FailureRecord :=
  let messages := failedMessages l in
  match limit with
  | Some n => if (n =? 0)%Z then messages else slice (- n) messages
  | None => messages
  end.

(** Body of the [forEach] of [getFailureSummary]. *)
Definition count_failure (summary : list (string * Z)) (failure : FailureRecord)
  : list (string * Z) :=
  let bucket :=
    if hasOwnProperty summary (f_reason failure) then f_reason failure
    else "other" in
  set_prop summary bucket (default 0%Z (get_prop summary bucket) + 1)%Z.

Definition getFailureSummary (l : Logger) : list (string * Z) :=
  let summary :=
    [("no_endpoint", 0%Z); ("http_error", 0%Z); ("timeout", 0%Z);
     ("network_error", 0%Z); ("other", 0%Z)] in
  fold_left count_failure (failedMessages l) summary.

Definition clearFailedMessages : M unit := update (with_failedMessages []).

Definition resetStats : M unit :=
  update (with_stats {| sent := 0; failed := 0; skipped := 0 |});;;
  update (with_failedMessages []).

(* ===================================================================== *)
(** ** Vocabulary of the specification *)
(* ===================================================================== *)

(** The writes the spec lists for a record, in its words: ambient context
    fields with a value that is not null or undefined, global fields, and
    per-call custom fields without the reserved keys; each under its
    prefixed name. *)
Definition context_writes (l : Logger) : object :=
  (fun kv => (fieldName kv.1, kv.2)) <$>
  filter (fun kv => is_nullish kv.2 = false) (cfContext l).

Definition global_writes (l : Logger) : object :=
  (fun kv => (fieldName kv.1, kv.2)) <$> globalFields l.

Definition custom_writes (entries : object) : object :=
  (fun kv => (fieldName kv.1, custom_value kv.2)) <$>
  filter (fun kv => kv.1 ∉ reserved) entries.

(** Later wins: the value of the last write to [k]. *)
Definition last_write {A} (ws : list (string * A)) (k : string) : option A :=
  get_prop (reverse ws) k.

(** The failure history after [failureInfo] is pushed on [history] under
    the bound [max]. *)
Definition retain (max : Z) (history : list FailureRecord)
    (failureInfo : FailureRecord) : list FailureRecord :=
  let pushed := (history ++ [failureInfo])%list in
  if (Z.of_nat (length pushed) >? max)%Z then tail pushed else pushed.

(** The [n] most recent failures, most recent first. *)
Definition most_recent_first (n : Z) (l : Logger) : list FailureRecord :=
  take (Z.to_nat n) (reverse (failedMessages l)).

(** The reasons that [getFailureSummary] counts under their own name. *)
Definition summarised : list string :=
  ["no_endpoint"; "http_error"; "timeout"; "network_error"].

(** How many of the failures [fs] bear the reason [r], and how many bear a
    reason without a count of its own. *)
Definition tally (r : string) (fs : list FailureRecord) : Z :=
  Z.of_nat (length (filter (fun f => f_reason f = r) fs)).

Definition tally_unlisted (fs : list FailureRecord) : Z :=
  Z.of_nat (length (filter (fun f => f_reason f ∉ summarised) fs)).

Definition count_reason (r : string) (l : Logger) : Z :=
  tally r (failedMessages l).

Definition count_unlisted (l : Logger) : Z :=
  tally_unlisted (failedMessages l).

(** The shape of the summary object. *)
Definition summary_of (a b c d e : Z) : list (string * Z) :=
  [("no_endpoint", a); ("http_error", b); ("timeout", c);
   ("network_error", d); ("other", e)].

(** The taxonomy of failure reasons of the spec. *)
Definition taxonomy : list string :=
  ["no_endpoint"; "no_ws_endpoint"; "http_error"; "timeout"; "network_error";
   "ws_send_error"].

(** The ten level methods. *)
Definition level_methods : list (value -> value -> value -> M unit) :=
  [emergency; alert; critical; error; warning; warn; notice; info; log; debug].

(** The state after [console.method(text)] is run if the logger is
    verbose. *)
Definition console_line (method text : string) (st : State) : State :=
  {| this := this st;
     world := if verbose (this st)
              then with_trace (trace (world st) ++ [EConsole method text]) (world st)
              else world st |}.

(** The state after [this.stats.failed++] and [_logFailure(failureInfo)]:
    one more failure counted, the record pushed on the bounded history, and
    a console line if the logger is verbose. *)
Definition record_failure (failureInfo : FailureRecord) (st : State) : State :=
  let l := this st in
  console_line "error" "GELFLogger: Failed to emit log"
    {| this := with_failedMessages
                 (retain (maxFailedMessages l) (failedMessages l) failureInfo)
                 (with_stats (with_failed (failed (stats l) + 1) (stats l)) l);
       world := world st |}.


(** The requests issued so far. *)
Definition is_fetch (e : effect) : bool :=
  match e with EFetch _ _ _ _ => true | _ => false end.

Definition requests (w : World) : list effect :=
  filter (fun e => is_fetch e = true) (trace w).

(** The timers started so far. *)
Definition is_timer (e : effect) : bool :=
  match e with ESetTimeout _ _ _ => true | _ => false end.

Definition timers (w : World) : list effect :=
  filter (fun e => is_timer e = true) (trace w).


(** The state in which the loop of [_processWebSocketQueue] stops when
    sending [message] raised [error]: the failure is recorded and the message
    is back at the head of the queue [q]. *)
Definition requeued (q : nat) (message : object) (rest : list object)
    (error : JsError) (st : State) : State :=
  let st' :=
    record_failure
      {| f_message := message; f_reason := "ws_send_error";
         f_error := err_message error; f_endpoint := None;
         f_timestamp := clock (world st) |} st in
  {| this := this st';
     world := with_arrays (<[q := message :: rest]> (arrays (world st')))
                          (world st') |}.

(** The state after [message] has been taken from the queue [q] and sent as
    [text] on socket [c]. *)
Definition shifted (q : nat) (rest : list object) (st : State) : State :=
  {| this := this st;
     world := with_arrays (<[q := rest]> (arrays (world st))) (world st) |}.

Definition delivered (c : nat) (text : string) (st : State) : State :=
  {| this := with_stats (with_sent (sent (stats (this st)) + 1) (stats (this st)))
                        (this st);
     world := with_trace (trace (world st) ++ [ESocketSend c text]) (world st) |}.

(** What draining leaves alone: the timers started and the authentication
    timer of the logger. *)
Definition same_timers (st st' : State) : Prop :=
  timers (world st') = timers (world st) /\
  next_timer (world st') = next_timer (world st) /\
  _wsAuthTimer (this st') = _wsAuthTimer (this st).

(** No socket has an [onmessage] handler, and a statement that keeps it
    so. *)
Definition no_onmessage (st : State) : Prop :=
  Forall (fun s => onmessage s = false) (sockets (world st)).

Definition keeps_no_onmessage {A} (c : M A) : Prop :=
  forall st, no_onmessage st -> no_onmessage (c st).2.

End Logger.

Notation "'let*' x ':=' c 'in' k" := (bind c (fun x => k))
  (at level 10, x pattern, c at level 100, k at level 200).
Notation "c ';;;' k" := (bind c (fun _ => k))
  (at level 100, k at level 200, right associativity).

(* ===================================================================== *)
(** ** A host and some loggers to run the model on *)
(* ===================================================================== *)

Definition quote : string := String (Ascii.ascii_of_nat 34) "".

(** A plain serialiser (no escaping). *)
Fixpoint sample_json (v : value) : string :=
  match v with
  | VUndefined => "undefined"
  | VNull => "null"
  | VBool true => "true"
  | VBool false => "false"
  | VNum n => pretty n
  | VSeconds ms => pretty ms +:+ "e-3"
  | VStr s => quote +:+ s +:+ quote
  | VObj props =>
      "{" +:+
      (fix members (ps : list (string * value)) : string :=
         match ps with
         | [] => ""
         | (k, x) :: ps' =>
             quote +:+ k +:+ quote +:+ ":" +:+ sample_json x +:+
             match ps' with [] => "" | _ => "," end +:+ members ps'
         end) props +:+ "}"
  | VArr items =>
      "[" +:+
      (fix elements (xs : list value) : string :=
         match xs with
         | [] => ""
         | x :: xs' =>
             sample_json x +:+
             match xs' with [] => "" | _ => "," end +:+ elements xs'
         end) items +:+ "]"
  end.

Definition sample_String (v : value) : string :=
  match v with
  | VObj _ => "[object Object]"
  | VArr _ => "[array]"
  | _ => sample_json v
  end.

(** A host with no global named [config], whose sockets accept every
    frame, and whose [JSON.parse] accepts no text. *)
Definition sample_host : Host :=
  {| JSON_stringify := fun v => Normal (sample_json v);
     JSON_parse := fun _ =>
       Throw {| err_name := "SyntaxError"; err_message := "Unexpected token" |};
     host_String := sample_String;
     WebSocket_new := fun _ => None;
     WebSocket_send := fun _ _ => None;
     randomUUID := fun n => "uuid-" +:+ pretty n;
     globalThis := [] |}.

(** The same host, except that [JSON.stringify] rejects arrays and sockets
    reject every frame. *)
Definition failing_host : Host :=
  {| JSON_stringify := fun v =>
       match v with
       | VArr _ => Throw (TypeError "Converting circular structure to JSON")
       | _ => Normal (sample_json v)
       end;
     JSON_parse := fun _ =>
       Throw {| err_name := "SyntaxError"; err_message := "Unexpected token" |};
     host_String := sample_String;
     WebSocket_new := fun _ => None;
     WebSocket_send := fun _ _ =>
       Some {| err_name := "InvalidStateError"; err_message := "not open" |};
     randomUUID := fun n => "uuid-" +:+ pretty n;
     globalThis := [] |}.


Definition no_config : Config :=
  {| c_env := None; c_request_context := []; c_log_session_id := None;
     c_endpoint := None; c_useWebSocket := None; c_wsEndpoint := None;
     c_wsMaxReconnectAttempts := None; c_host := None; c_facility := None;
     c_globalFields := None; c_minLevel := None; c_consoleLog := None;
     c_overloadConsole := None; c_timeout := None;
     c_maxFailedMessages := None |}.

(** [new GELFLogger({endpoint: 'https://logs.example/gelf', consoleLog:
    false})] in the empty world, its array allocated at reference 0. *)
Definition http_logger : Logger :=
  {| log_session_id := "uuid-0"; useWebSocket := false; wsEndpoint := None;
     wsConnection := None; wsMessageQueue := 0; wsConnecting := false;
     wsReconnectAttempts := 0; wsMaxReconnectAttempts := 5;
     endpoint := Some "https://logs.example/gelf"; accessId := None;
     accessSecret := None; host := "cloudflare-worker"; facility := "worker";
     cfContext := []; globalFields := []; minLevel := 6; consoleLog := false;
     overloadConsole := false; timeout := 5000; pendingPromises := [];
     stats := {| sent := 0; failed := 0; skipped := 0 |};
     failedMessages := []; maxFailedMessages := 50; wsAuthenticated := false;
     wsAuthTimeout := VUndefined; _wsAuthTimer := None |}.

Definition http_world : World :=
  {| clock := 1700000000000; arrays := [[]]; sockets := []; trace := [ERandomUUID];
     uuids := 1; next_timer := 0; next_promise := 0; aborted := [];
     console_patched := [] |}.

Definition http_state : State := {| this := http_logger; world := http_world |}.

Definition failure (reason : string) (at_ : Z) : FailureRecord :=
  {| f_message := [("short_message", VStr "x")]; f_reason := reason;
     f_error := "failed"; f_endpoint := None; f_timestamp := at_ |}.

(** A logger that has recorded three failures, the oldest first. *)
Definition three_failures : Logger :=
  with_failedMessages
    [failure "http_error" 1; failure "timeout" 2; failure "ws_send_error" 3]
    http_logger.

(** A logger whose global fields hold an object. *)
Definition nested_global_logger : Logger :=
  {| log_session_id := "uuid-0"; useWebSocket := false; wsEndpoint := None;
     wsConnection := None; wsMessageQueue := 0; wsConnecting := false;
     wsReconnectAttempts := 0; wsMaxReconnectAttempts := 5;
     endpoint := Some "https://logs.example/gelf"; accessId := None;
     accessSecret := None; host := "cloudflare-worker"; facility := "worker";
     cfContext := [("colo", VStr "SFO"); ("city", VNull)];
     globalFields := [("meta", VObj [("a", VNum 1)])];
     minLevel := 6; consoleLog := false;
     overloadConsole := false; timeout := 5000; pendingPromises := [];
     stats := {| sent := 0; failed := 0; skipped := 0 |};
     failedMessages := []; maxFailedMessages := 50; wsAuthenticated := false;
     wsAuthTimeout := VUndefined; _wsAuthTimer := None |}.

(** A stream logger with credentials, its socket (reference 0) open and one
    record waiting in its queue (reference 0). *)
Definition ws_logger : Logger :=
  {| log_session_id := "uuid-0"; useWebSocket := true;
     wsEndpoint := Some "wss://logs.example/ws";
     wsConnection := Some 0%nat; wsMessageQueue := 0; wsConnecting := true;
     wsReconnectAttempts := 0; wsMaxReconnectAttempts := 5;
     endpoint := None; accessId := Some "id";
     accessSecret := Some "secret"; host := "cloudflare-worker";
     facility := "worker"; cfContext := []; globalFields := []; minLevel := 6;
     consoleLog := false; overloadConsole := false; timeout := 5000;
     pendingPromises := [];
     stats := {| sent := 0; failed := 0; skipped := 0 |};
     failedMessages := []; maxFailedMessages := 10; wsAuthenticated := false;
     wsAuthTimeout := VUndefined; _wsAuthTimer := None |}.

Definition ws_world : World :=
  {| clock := 1700000000000;
     arrays := [[ [("short_message", VStr "queued")] ]];
     sockets := [{| readyState := 1; onopen := true; onclose := true;
                    onerror := true; onmessage := false |}];
     trace := []; uuids := 1; next_timer := 0; next_promise := 0;
     aborted := []; console_patched := [] |}.

Definition ws_state : State := {| this := ws_logger; world := ws_world |}.



(* ===================================================================== *)
(** ** Operations, assertions and further vocabulary *)
(* ===================================================================== *)

(** [{P} c {Q}], with [E] the assertion that holds when [c] raises. *)
Definition triple {A} (P : State -> Prop) (c : M A) (Q E : State -> Prop)
  : Prop :=
  forall st, P st ->
    match c st with
    | (Normal _, st') => Q st'
    | (Throw _, st') => E st'
    end.

(** An assertion about the logger instance alone. *)
Definition on_this (p : Logger -> Prop) : State -> Prop :=
  fun st => p (this st).

(** The settings that the constructor fixes. *)
Definition same_config (l0 l : Logger) : Prop :=
  log_session_id l = log_session_id l0 /\
  useWebSocket l = useWebSocket l0 /\
  wsEndpoint l = wsEndpoint l0 /\
  wsMessageQueue l = wsMessageQueue l0 /\
  wsMaxReconnectAttempts l = wsMaxReconnectAttempts l0 /\
  endpoint l = endpoint l0 /\
  accessId l = accessId l0 /\
  accessSecret l = accessSecret l0 /\
  host l = host l0 /\
  facility l = facility l0 /\
  cfContext l = cfContext l0 /\
  globalFields l = globalFields l0 /\
  minLevel l = minLevel l0 /\
  consoleLog l = consoleLog l0 /\
  overloadConsole l = overloadConsole l0 /\
  timeout l = timeout l0 /\
  maxFailedMessages l = maxFailedMessages l0.

(** The failure history is within its bound; under a negative bound it is
    empty. *)
Definition history_bounded (l : Logger) : Prop :=
  (Z.of_nat (length (failedMessages l)) <= Z.max 0 (maxFailedMessages l))%Z.

(** Every retained failure has been counted; [pending] failures have been
    counted and not recorded yet. *)
Definition history_counted (pending : nat) (l : Logger) : Prop :=
  (Z.of_nat (length (failedMessages l)) + Z.of_nat pending
   <= failed (stats l))%Z.

(** No counter is below its value in [s0]. *)
Definition counters_from (s0 : Stats) (l : Logger) : Prop :=
  (sent s0 <= sent (stats l))%Z /\
  (failed s0 <= failed (stats l))%Z /\
  (skipped s0 <= skipped (stats l))%Z.

(** The assertion carried through the operations: the configuration is
    that of [l0], and, each when asked for, the history is bounded, the
    history is counted, and the counters have not gone below [s0]. *)
Definition sound (l0 : Logger) (s0 : Stats) (B C D : Prop) (pending : nat)
    (l : Logger) : Prop :=
  same_config l0 l /\ (B -> history_bounded l) /\
  (C -> history_counted pending l) /\ (D -> counters_from s0 l).

(** The logger's queue array exists in the heap. *)
Definition queue_allocated (st : State) : Prop :=
  (wsMessageQueue (this st) < length (arrays (world st)))%nat.

(** The contents of the logger's queue. *)
Definition queue_of (st : State) : list object :=
  default [] (arrays (world st) !! wsMessageQueue (this st)).

(** The state after [message] is pushed on the logger's queue. *)
Definition enqueued (message : object) (st : State) : State :=
  {| this := this st;
     world := with_arrays
                (<[wsMessageQueue (this st) := (queue_of st ++ [message])%list]>
                   (arrays (world st)))
                (world st) |}.

(** The logger has no socket, or its socket is closed. *)
Definition disconnected (st : State) : Prop :=
  match wsConnection (this st) with
  | Some c => socket_state (world st) c = 3%Z
  | None => True
  end.

(** The frames sent so far on socket [c]. *)
Definition frames_on (c : nat) (w : World) : list string :=
  omap (fun e => match e with
                 | ESocketSend c' text =>
                     if bool_decide (c' = c) then Some text else None
                 | _ => None
                 end) (trace w).

(** Whether an effect is the start of a reconnect timer. *)
Definition is_reconnect (e : effect) : bool :=
  match e with ESetTimeout _ CbReconnect _ => true | _ => false end.

(** The delay of the reconnect timer started after [attempts] attempts. *)
Definition backoff (attempts : Z) : Z := Z.min (1000 * 2 ^ attempts) 30000.

Section Extensions.
Context `{Host}.

(** What happens to a logger: the calls a user makes and the events the
    platform delivers to the callbacks the logger registered. *)
Inductive operation :=
| Log (level : Z) (shortMessage fullMessage customFields : value)
| LogException (error customFields : value)
| Responded (gelfMessage : object) (timeoutId : nat) (response : Response)
| Rejected (gelfMessage : object) (timeoutId : nat) (error : JsError)
| Opened
| Closed
| Errored
| AuthTimerFired
| ReconnectTimerFired
| ClearFailedMessages
| ResetStats.

Definition perform (op : operation) : M unit :=
  match op with
  | Log level shortMessage fullMessage customFields =>
      _log level shortMessage fullMessage customFields
  | LogException error customFields => exception error customFields
  | Responded gelfMessage timeoutId response =>
      send_then gelfMessage timeoutId response
  | Rejected gelfMessage timeoutId error => send_catch gelfMessage timeoutId error
  | Opened => onopen_handler
  | Closed => onclose_handler
  | Errored => onerror_handler
  | AuthTimerFired => auth_timer_fired
  | ReconnectTimerFired => _connectWebSocket
  | ClearFailedMessages => clearFailedMessages
  | ResetStats => resetStats
  end.

(** The state after a run of operations; an exception that reaches the
    caller leaves the state as it is at that point. *)
Definition after (ops : list operation) (st : State) : State :=
  fold_left (fun st op => (perform op st).2) ops st.

(** Whether socket [c] takes the queued record [message]: it serialises
    and the send does not raise. *)
Definition accepted (c : nat) (message : object) : bool :=
  match JSON_stringify (VObj message) with
  | Normal text =>
      match WebSocket_send c text with None => true | Some _ => false end
  | Throw _ => false
  end.

(** The frame of a record. *)
Definition frame (message : object) : string :=
  match JSON_stringify (VObj message) with
  | Normal text => text
  | Throw _ => ""
  end.

(** The records at the head of a queue that socket [c] takes, and the
    rest. *)
Fixpoint taken (c : nat) (queue : list object) : list object :=
  match queue with
  | [] => []
  | message :: rest =>
      if accepted c message then message :: taken c rest else []
  end.

Fixpoint left_over (c : nat) (queue : list object) : list object :=
  match queue with
  | [] => []
  | message :: rest =>
      if accepted c message then left_over c rest else message :: rest
  end.

(** [n] close events in a row. *)
Fixpoint closes (n : nat) (st : State) : State :=
  match n with
  | O => st
  | S n' => closes n' (onclose_handler st).2
  end.

(** The calls of a user of a one-shot logger, and the events of its
    requests. *)
Definition one_shot_operation (op : operation) : bool :=
  match op with
  | Log _ _ _ _ | LogException _ _ | Responded _ _ _ | Rejected _ _ _
  | ClearFailedMessages | ResetStats => true
  | _ => false
  end.

(** The operations that raise: [exception] on [null] or [undefined]. *)
Definition raises (op : operation) : bool :=
  match op with
  | LogException error _ => is_nullish error
  | _ => false
  end.

(** A run of [_sendWebSocket] calls. *)
Definition sends (messages : list object) (st : State) : State :=
  fold_left (fun st message => (_sendWebSocket message st).2) messages st.

End Extensions.

(** The socket that [_connectWebSocket] leaves behind: connecting, with
    the three handlers it assigns. *)
Definition wired_socket : Socket :=
  {| readyState := 0; onopen := true; onclose := true; onerror := true;
     onmessage := false |}.

(** An assertion on the logger instance and one on the world. *)
Definition holds (pl : Logger -> Prop) (pw : World -> Prop) : State -> Prop :=
  fun st => pl (this st) /\ pw (world st).

(** The effects of the one-shot transport: a request and its cancellation
    timer; and those of the stream transport: a socket, a frame, and the
    authentication and reconnect timers. *)
Definition one_shot_effect (e : effect) : bool :=
  match e with
  | EFetch _ _ _ _ | ESetTimeout _ (CbAbort _) _ => true
  | _ => false
  end.

Definition stream_effect (e : effect) : bool :=
  match e with
  | EWebSocket _ _ | ESocketSend _ _ | ESetTimeout _ CbAuthTimeout _
  | ESetTimeout _ CbReconnect _ => true
  | _ => false
  end.

Definition one_shot_effects (w : World) : list effect :=
  filter (fun e => one_shot_effect e = true) (trace w).

Definition stream_effects (w : World) : list effect :=
  filter (fun e => stream_effect e = true) (trace w).

(** The timers cleared so far. *)
Definition is_clear (e : effect) : bool :=
  match e with EClearTimeout _ => true | _ => false end.

Definition timers_cleared (w : World) : list effect :=
  filter (fun e => is_clear e = true) (trace w).

(** The delays of the reconnect timers started so far. *)
Definition reconnect_delays (w : World) : list value :=
  omap (fun e => match e with
                 | ESetTimeout _ CbReconnect delay => Some delay
                 | _ => None
                 end) (trace w).

Arguments reconnect_delays : simpl never.

(** A statement that completes normally in every state. *)
Definition safe {A} (c : M A) : Prop :=
  forall st, exists a st', c st = (Normal a, st').

(** A statement that completes normally and leaves the logger instance as
    it is, and one that leaves it as it is but may raise. *)
Definition quiet {A} (c : M A) : Prop :=
  forall st, exists a st', c st = (Normal a, st') /\ this st' = this st.

Definition still {A} (c : M A) : Prop :=
  forall st, this (c st).2 = this st.

(** A run of operations on the one-shot sample logger: a sent record, its
    request rejected, a filtered record, a record with null custom fields,
    and a rejected response. *)
Definition sample_ops : list operation :=
  [Log 6 (VStr "a") VUndefined VUndefined;
   Rejected [("short_message", VStr "a")] 0
     {| err_name := "TypeError"; err_message := "fetch failed" |};
   Log 7 (VStr "b") VUndefined VUndefined;
   Log 3 (VStr "c") VNull VNull;
   Responded [("short_message", VStr "d")] 1
     {| ok := false; status := VNum 500; statusText := VStr "Internal" |};
   ClearFailedMessages].

(** A host like [sample_host], except that [JSON.stringify] raises on an
    object with a property [_meta], as it does when the value under it is
    cyclic. *)
Definition cycle_host : Host :=
  {| JSON_stringify := fun v =>
       match v with
       | VObj props =>
           if hasOwnProperty props "_meta"
           then Throw (TypeError "Converting circular structure to JSON")
           else Normal (sample_json v)
       | _ => Normal (sample_json v)
       end;
     JSON_parse := fun _ =>
       Throw {| err_name := "SyntaxError"; err_message := "Unexpected token" |};
     host_String := sample_String;
     WebSocket_new := fun _ => None;
     WebSocket_send := fun _ _ => None;
     randomUUID := fun n => "uuid-" +:+ pretty n;
     globalThis := [] |}.

(** Three records, the second of which does not serialise on
    [cycle_host]; and the stream sample logger without credentials, its
    socket open and the three records queued. *)
Definition backlog : list object :=
  [[("short_message", VStr "one")];
   [("short_message", VStr "two"); ("_meta", VNull)];
   [("short_message", VStr "three")]].

Definition backlog_state : State :=
  {| this := with_accessId None (with_accessSecret None ws_logger);
     world := with_arrays [backlog] ws_world |}.

(** A stream logger whose socket has closed and whose reconnect attempts
    are used up; its queue is empty. *)
Definition exhausted_state : State :=
  {| this := with_wsConnecting false (with_wsReconnectAttempts 5 ws_logger);
     world := with_arrays [[]]
                (with_sockets [{| readyState := 3; onopen := true;
                                  onclose := true; onerror := true;
                                  onmessage := false |}] ws_world) |}.

(** A host like [sample_host], except that [new WebSocket] raises. *)
Definition offline_host : Host :=
  {| JSON_stringify := fun v => Normal (sample_json v);
     JSON_parse := fun _ =>
       Throw {| err_name := "SyntaxError"; err_message := "Unexpected token" |};
     host_String := sample_String;
     WebSocket_new := fun _ =>
       Some {| err_name := "SyntaxError"; err_message := "invalid URL" |};
     WebSocket_send := fun _ _ => None;
     randomUUID := fun n => "uuid-" +:+ pretty n;
     globalThis := [] |}.

(** A run of operations on the stream sample logger: a record logged, the
    socket closed, the reconnect timer fired, the new socket opened, and
    another record logged. *)
Definition stream_ops : list operation :=
  [Log 6 (VStr "a") VUndefined VUndefined; Closed; ReconnectTimerFired; Opened;
   Log 3 (VStr "b") VUndefined VUndefined].







(** The sum of the counts of a summary. *)
Definition total (summary : list (string * Z)) : Z :=
  foldr Z.add 0%Z (summary.*2).


(* ===================================================================== *)
(** * Properties *)
(* ===================================================================== *)

Section PropertyTables.
Context {A : Type}.
Implicit Types (o ws : list (string * A)) (k : string) (v : A).

Lemma get_set_same o k v : get_prop (set_prop o k v) k = Some v.
Proof.
  induction o as [|[k' v'] o IH]; simpl.
  - by rewrite bool_decide_eq_true_2.
  - case_bool_decide; simpl.
    + by rewrite bool_decide_eq_true_2.
    + by rewrite bool_decide_eq_false_2.
Qed.

Lemma get_set_other o k k' v :
  k <> k' -> get_prop (set_prop o k v) k' = get_prop o k'.
Proof.
  intros Hne. induction o as [|[k0 v0] o IH]; simpl.
  - by rewrite bool_decide_eq_false_2.
  - case_bool_decide as Hk; simpl.
    + subst k0. by rewrite !bool_decide_eq_false_2.
    + by rewrite IH.
Qed.

Lemma get_set o k k' v :
  get_prop (set_prop o k v) k' =
  if bool_decide (k = k') then Some v else get_prop o k'.
Proof.
  case_bool_decide as Hk.
  - subst. apply get_set_same.
  - by apply get_set_other.
Qed.

Lemma get_prop_app o1 o2 k :
  get_prop (o1 ++ o2) k =
  match get_prop o1 k with Some v => Some v | None => get_prop o2 k end.
Proof.
  induction o1 as [|[k' v'] o1 IH]; simpl; [done|].
  by case_bool_decide.
Qed.

Lemma assign_cons o kv ws :
  assign o (kv :: ws) = assign (set_prop o kv.1 kv.2) ws.
Proof. reflexivity. Qed.

Lemma assign_app o ws1 ws2 : assign o (ws1 ++ ws2) = assign (assign o ws1) ws2.
Proof. unfold assign. apply fold_left_app. Qed.

(** Later wins: a property of the result holds the last value written to
    it, and its old value when nothing was written to it. *)
Lemma get_assign o ws k :
  get_prop (assign o ws) k =
  match last_write ws k with Some v => Some v | None => get_prop o k end.
Proof.
  revert o. induction ws as [|[k' v'] ws IH]; intros o.
  - reflexivity.
  - rewrite assign_cons, IH. unfold last_write.
    rewrite reverse_cons, get_prop_app. simpl.
    destruct (get_prop (reverse ws) k); [done|].
    rewrite get_set. by case_bool_decide.
Qed.

Lemma last_write_elem ws k v : last_write ws k = Some v -> (k, v) ∈ ws.
Proof.
  unfold last_write. intros Hget. apply elem_of_reverse.
  induction (reverse ws) as [|[k' v'] o IH]; simpl in *; [done|].
  case_bool_decide; simplify_eq.
  - left.
  - right. auto.
Qed.

Lemma last_write_None ws k :
  (forall v, (k, v) ∉ ws) -> last_write ws k = None.
Proof.
  intros Hno. destruct (last_write ws k) as [v|] eqn:Hw; [|done].
  apply last_write_elem in Hw. by apply Hno in Hw.
Qed.

Lemma last_write_is_Some ws k v : (k, v) ∈ ws -> is_Some (last_write ws k).
Proof.
  unfold last_write. intros Hin. apply elem_of_reverse in Hin.
  induction (reverse ws) as [|[k' v'] o IH]; simpl.
  - by apply elem_of_nil in Hin.
  - case_bool_decide as Hk; [by eexists|].
    apply elem_of_cons in Hin as [Heq|Hin]; [by simplify_eq|auto].
Qed.
End PropertyTables.

(* --------------------------------------------------------------------- *)
(** ** The record builder *)

Section Builder.
Context `{Host}.
Implicit Types (l : Logger) (m message : object) (v : value).

Lemma fieldName_prefixed key : startsWith_underscore (fieldName key) = true.
Proof.
  unfold fieldName. destruct (startsWith_underscore key) eqn:Hk; [done|].
  reflexivity.
Qed.

Lemma reserved_not_prefixed r : r ∈ reserved -> startsWith_underscore r = false.
Proof.
  unfold reserved. rewrite !elem_of_cons, elem_of_nil.
  intros Hr. repeat destruct Hr as [->|Hr]; try reflexivity. done.
Qed.

Lemma fieldName_not_reserved key : fieldName key ∉ reserved.
Proof.
  intros Hr. apply reserved_not_prefixed in Hr.
  by rewrite fieldName_prefixed in Hr.
Qed.

(** The three loops are runs of assignments. *)
Lemma context_loop (fields : object) message :
  fold_left add_context_field fields message =
  assign message ((fun kv => (fieldName kv.1, kv.2)) <$>
                  filter (fun kv => is_nullish kv.2 = false) fields).
Proof.
  revert message. induction fields as [|[key v] fields IH]; intros message.
  - reflexivity.
  - simpl. rewrite IH, filter_cons. simpl.
    by destruct (is_nullish v).
Qed.

Lemma global_loop (fields : object) message :
  fold_left add_global_field fields message =
  assign message ((fun kv => (fieldName kv.1, kv.2)) <$> fields).
Proof.
  revert message. induction fields as [|[key v] fields IH]; intros message.
  - reflexivity.
  - simpl. by rewrite IH.
Qed.

Lemma custom_loop (entries : object) message :
  fold_left add_custom_field entries message =
  assign message (custom_writes entries).
Proof.
  unfold custom_writes.
  revert message. induction entries as [|[key v] entries IH]; intros message.
  - reflexivity.
  - simpl. rewrite IH, filter_cons. unfold is_reserved. simpl.
    case_bool_decide as Hr.
    + by rewrite decide_False by (by intros Hn; apply Hn).
    + by rewrite decide_True.
Qed.

Lemma build_unfold l now level sm fm cf :
  _buildGELFMessage l now level sm fm cf =
  match Object_entries (default_arg (VObj []) cf) with
  | Throw e => Throw e
  | Normal entries =>
      Normal (assign
                (add_full_message (default_arg VNull fm)
                                  (base_message l now level sm))
                (context_writes l ++ global_writes l ++ custom_writes entries))
  end.
Proof.
  unfold _buildGELFMessage.
  destruct (Object_entries _) as [entries|e]; [|done].
  by rewrite custom_loop, global_loop, context_loop, !assign_app.
Qed.

Lemma build_entries l now level sm fm cf m :
  _buildGELFMessage l now level sm fm cf = Normal m ->
  Object_entries (default_arg (VObj []) cf)
  = Normal (spread (default_arg (VObj []) cf)).
Proof.
  rewrite build_unfold. unfold spread.
  by destruct (Object_entries _).
Qed.

Lemma custom_value_flat v : is_live_object (custom_value v) = false.
Proof. by destruct v. Qed.

Lemma base_flat l now level sm fm k v :
  get_prop (add_full_message fm (base_message l now level sm)) k = Some v ->
  is_live_object v = false.
Proof.
  unfold add_full_message.
  destruct (truthy fm).
  - rewrite get_set. case_bool_decide; [by intros [= <-]|].
    simpl. repeat (case_bool_decide; [by intros [= <-]|]). done.
  - simpl. repeat (case_bool_decide; [by intros [= <-]|]). done.
Qed.

Lemma base_required l now level sm fm :
  let base := add_full_message fm (base_message l now level sm) in
  get_prop base "short_message" = Some (VStr (String_ sm)) /\
  get_prop base "host" = Some (VStr (host l)) /\
  get_prop base "level" = Some (VNum level) /\
  get_prop base "version" = Some (VStr "1.1").
Proof.
  simpl. unfold add_full_message.
  destruct (truthy fm); [rewrite !get_set_other by done|]; done.
Qed.

Lemma writes_prefixed l entries k v :
  (k, v) ∈ (context_writes l ++ global_writes l ++ custom_writes entries)%list ->
  startsWith_underscore k = true.
Proof.
  unfold context_writes, global_writes, custom_writes.
  rewrite !elem_of_app, !list_elem_of_fmap.
  intros [([k0 v0] & [= -> ->] & _)|[([k0 v0] & [= -> ->] & _)
                                   |([k0 v0] & [= -> ->] & _)]];
    apply fieldName_prefixed.
Qed.

(** A built record is the base record with the three runs of writes
    applied in order. *)
Lemma built_record l now level sm fm cf m :
  _buildGELFMessage l now level sm fm cf = Normal m ->
  m = assign (add_full_message (default_arg VNull fm)
                               (base_message l now level sm))
             (context_writes l ++ global_writes l
              ++ custom_writes (spread (default_arg (VObj []) cf))).
Proof.
  intros Hbuild.
  pose proof (build_entries _ _ _ _ _ _ _ Hbuild) as Hentries.
  rewrite build_unfold, Hentries in Hbuild. by injection Hbuild as <-.
Qed.

Lemma built_lookup l now level sm fm cf m k :
  _buildGELFMessage l now level sm fm cf = Normal m ->
  get_prop m k =
  match last_write (custom_writes (spread (default_arg (VObj []) cf))) k with
  | Some v => Some v
  | None =>
      match last_write (global_writes l) k with
      | Some v => Some v
      | None =>
          match last_write (context_writes l) k with
          | Some v => Some v
          | None =>
              get_prop (add_full_message (default_arg VNull fm)
                                         (base_message l now level sm)) k
          end
      end
  end.
Proof.
  intros Hbuild. rewrite (built_record _ _ _ _ _ _ _ Hbuild).
  by rewrite !assign_app, !get_assign.
Qed.

Lemma built_reserved l now level sm fm cf m r :
  _buildGELFMessage l now level sm fm cf = Normal m ->
  r ∈ reserved ->
  get_prop m r =
  get_prop (add_full_message (default_arg VNull fm)
                             (base_message l now level sm)) r.
Proof.
  intros Hbuild Hr. rewrite (built_record _ _ _ _ _ _ _ Hbuild).
  rewrite get_assign, last_write_None; [done|].
  intros v Hin. apply writes_prefixed in Hin.
  by rewrite (reserved_not_prefixed r Hr) in Hin.
Qed.

Lemma custom_write_origin (entries : object) name v :
  (name, v) ∈ custom_writes entries ->
  exists key v0,
    (key, v0) ∈ entries /\ (key ∉ reserved) /\
    name = fieldName key /\ v = custom_value v0.
Proof.
  unfold custom_writes.
  rewrite list_elem_of_fmap. intros ([key v0] & [= -> ->] & Hin).
  apply list_elem_of_filter in Hin as [Hres Hin]. by exists key, v0.
Qed.


(** The part of the record invariant that holds.  Every record the
    builder returns has
    short_message, host, level and version set.  Every per-call custom
    field that is not reserved leaves, under its prefixed name, a value
    that is not a live object: null, a primitive, or text, which is the
    JSON text of an object or, when serialisation raises, its String
    coercion.  Ambient context and global values are stored as they are:
    a live object in a record is a value of the logger's ambient context
    or global fields.  Serialisation failures never raise: the builder
    returns a record for every object of custom fields. *)
Lemma record_invariant l now level sm fm :
  (forall props : object,
      exists m, _buildGELFMessage l now level sm fm (VObj props) = Normal m)
  /\ (forall cf m,
        _buildGELFMessage l now level sm fm cf = Normal m ->
        (get_prop m "short_message" = Some (VStr (String_ sm)) /\
         get_prop m "host" = Some (VStr (host l)) /\
         get_prop m "level" = Some (VNum level) /\
         get_prop m "version" = Some (VStr "1.1"))
        /\ (forall key v0,
              (key, v0) ∈ spread (default_arg (VObj []) cf) ->
              key ∉ reserved ->
              exists v, get_prop m (fieldName key) = Some v /\
                        is_live_object v = false)
        /\ (forall k v,
              get_prop m k = Some v -> is_live_object v = true ->
              exists key, (key, v) ∈ cfContext l \/ (key, v) ∈ globalFields l))
  /\ (forall v,
        is_nullish v = false -> is_object_type v = true ->
        custom_value v =
        VStr (match JSON_stringify v with
              | Normal text => text
              | Throw _ => String_ v
              end)).
Proof.
  split; [|split].
  - intros props. rewrite build_unfold. simpl. by eexists.
  - intros cf m Hbuild.
    pose proof (fun k => built_lookup _ _ _ _ _ _ _ k Hbuild) as Hget.
    pose proof (fun r => built_reserved _ _ _ _ _ _ _ r Hbuild) as Hreserved.
    pose proof (custom_write_origin (spread (default_arg (VObj []) cf)))
      as Hcustom.
    split; [|split].
    + rewrite !Hreserved by (unfold reserved; repeat constructor).
      apply base_required.
    + intros key v0 Hin Hres. rewrite Hget.
      assert ((fieldName key, custom_value v0)
              ∈ custom_writes (spread (default_arg (VObj []) cf))) as Hw.
      { unfold custom_writes. apply list_elem_of_fmap.
        exists (key, v0). split; [done|]. by apply list_elem_of_filter. }
      destruct (last_write_is_Some _ _ _ Hw) as [v Hv]. rewrite Hv.
      exists v. split; [done|].
      apply last_write_elem, Hcustom in Hv as (? & ? & _ & _ & _ & ->).
      apply custom_value_flat.
    + intros k v. rewrite Hget. intros Hv Hlive.
      destruct (last_write (custom_writes _) k) as [v'|] eqn:Hc.
      { injection Hv as ->.
        apply last_write_elem, Hcustom in Hc as (? & ? & _ & _ & _ & ->).
        by rewrite custom_value_flat in Hlive. }
      destruct (last_write (global_writes l) k) as [v'|] eqn:Hg.
      { injection Hv as ->. apply last_write_elem in Hg.
        unfold global_writes in Hg.
        apply list_elem_of_fmap in Hg as ([key v0] & [= -> ->] & Hin).
        exists key. by right. }
      destruct (last_write (context_writes l) k) as [v'|] eqn:Ha.
      { injection Hv as ->. apply last_write_elem in Ha.
        unfold context_writes in Ha.
        apply list_elem_of_fmap in Ha as ([key v0] & [= -> ->] & Hin).
        apply list_elem_of_filter in Hin as [_ Hin].
        exists key. by left. }
      apply base_flat in Hv. congruence.
  - intros v Hnull Hobj. unfold custom_value, stringify_or_String.
    by rewrite Hnull, Hobj.
Qed.
End Builder.


(** [C4] The builder stores a global field as it is.  On a logger
    constructed with [globalFields: {meta: {a: 1}}] and on every host, the
    record built for [info('x')] holds under [_meta] the object itself, not
    its JSON text: the loop over the global fields lacks the serialisation
    that the loop over the custom fields has. *)
Theorem global_object_stays_live :
  forall H : Host,
    exists m,
      @_buildGELFMessage H nested_global_logger 0 6 (VStr "x") VNull (VObj [])
      = Normal m /\
      get_prop m "_meta" = Some (VObj [("a", VNum 1)]) /\
      is_live_object (VObj [("a", VNum 1)]) = true.
Proof. intros H. eexists. repeat split. Qed.

Example record_invariant_example :
  exists m,
    @_buildGELFMessage failing_host http_logger 0 6 (VStr "x") VNull
       (VObj [("user", VObj [("id", VNum 7)]); ("tags", VArr [VStr "a"])])
    = Normal m /\
    get_prop m "short_message" = Some (VStr "x") /\
    (exists v, get_prop m "_tags" = Some v /\ is_live_object v = false) /\
    @custom_value failing_host (VArr [VStr "a"]) = VStr "[array]".
Proof.
  destruct (@record_invariant failing_host http_logger 0 6 (VStr "x") VNull)
    as (Htotal & Hrecord & Hfallback).
  destruct (Htotal [("user", VObj [("id", VNum 7)]); ("tags", VArr [VStr "a"])])
    as [m Hm].
  exists m. split; [exact Hm|].
  destruct (Hrecord _ _ Hm) as ((Hshort & _) & Hcustom & _).
  split; [exact Hshort|]. split.
  - apply (Hcustom "tags" (VArr [VStr "a"])).
    + simpl. repeat constructor.
    + unfold reserved. rewrite !elem_of_cons, elem_of_nil.
      intros Hr. repeat destruct Hr as [Hr|Hr]; discriminate || done.
  - apply (Hfallback (VArr [VStr "a"])); reflexivity.
Qed.

(* --------------------------------------------------------------------- *)
(** ** Failure history accessors *)

Section History.
Implicit Types (l : Logger) (n : Z).

(** [C8], as the code has it.  For a positive limit [n],
    [getFailedMessages(n)] returns the min(n, retained) most recent
    failure records in the order they were recorded, oldest first: it is
    the tail end of the history, and reading it backwards gives the most
    recent first.  Without a limit it returns the whole history. *)
Theorem failed_messages_limit l n :
  (0 < n)%Z ->
  let got := getFailedMessages (Some n) l in
  Z.of_nat (length got) = Z.min n (Z.of_nat (length (failedMessages l)))
  /\ (exists older, failedMessages l = (older ++ got)%list)
  /\ reverse got = most_recent_first n l
  /\ getFailedMessages None l = failedMessages l.
Proof.
  intros Hn got. subst got. unfold getFailedMessages, slice, most_recent_first.
  rewrite (proj2 (Z.eqb_neq n 0)) by lia.
  rewrite (proj2 (Z.ltb_lt (- n) 0)) by lia.
  set (xs := failedMessages l).
  set (from := Z.to_nat (Z.max (Z.of_nat (length xs) + - n) 0)).
  split; [|split; [|split]].
  - rewrite length_drop. subst from. lia.
  - exists (take from xs). by rewrite take_drop.
  - rewrite reverse_drop.
    destruct (decide (n <= Z.of_nat (length xs))%Z) as [Hle|Hgt].
    + f_equal. subst from. lia.
    + rewrite !take_ge; [done|rewrite length_reverse; lia
                             |rewrite length_reverse; subst from; lia].
  - reflexivity.
Qed.

(** [C10] A limit of 0 is treated as no limit: the whole retained
    history is returned, not an empty list. *)
Theorem zero_limit_returns_all l :
  getFailedMessages (Some 0%Z) l = failedMessages l
  /\ getFailedMessages (Some 0%Z) l = getFailedMessages None l
  /\ (failedMessages l <> [] -> getFailedMessages (Some 0%Z) l <> []).
Proof. by repeat split. Qed.

Lemma tally_cons r f fs :
  tally r (f :: fs) = ((if bool_decide (f_reason f = r) then 1 else 0) + tally r fs)%Z.
Proof.
  unfold tally. rewrite filter_cons.
  case_bool_decide; [rewrite decide_True by done|rewrite decide_False by done];
    simpl; lia.
Qed.

Lemma tally_unlisted_cons f fs :
  tally_unlisted (f :: fs) =
  ((if bool_decide (f_reason f ∈ summarised) then 0 else 1) + tally_unlisted fs)%Z.
Proof.
  unfold tally_unlisted. rewrite filter_cons.
  case_bool_decide; [rewrite decide_False by auto|rewrite decide_True by done];
    simpl; lia.
Qed.

Lemma summary_fold fs a b c d e :
  fold_left count_failure fs (summary_of a b c d e) =
  summary_of (a + tally "no_endpoint" fs) (b + tally "http_error" fs)
             (c + tally "timeout" fs) (d + tally "network_error" fs)
             (e + tally_unlisted fs).
Proof.
  revert a b c d e. induction fs as [|f fs IH]; intros a b c d e.
  - unfold tally, tally_unlisted. simpl. by rewrite !Z.add_0_r.
  - simpl fold_left. rewrite !tally_cons, tally_unlisted_cons.
    assert (count_failure (summary_of a b c d e) f =
            summary_of
              (a + if bool_decide (f_reason f = "no_endpoint") then 1 else 0)
              (b + if bool_decide (f_reason f = "http_error") then 1 else 0)
              (c + if bool_decide (f_reason f = "timeout") then 1 else 0)
              (d + if bool_decide (f_reason f = "network_error") then 1 else 0)
              (e + if bool_decide (f_reason f ∈ summarised) then 0 else 1))
      as ->.
    { unfold count_failure, hasOwnProperty, summary_of.
      destruct (decide (f_reason f ∈ summarised)) as [Hin|Hout].
      - rewrite (bool_decide_eq_true_2 _ Hin).
        unfold summarised in Hin.
        rewrite !elem_of_cons, elem_of_nil in Hin.
        repeat destruct Hin as [->|Hin]; try done;
          simpl; rewrite ?Z.add_0_r; reflexivity.
      - rewrite (bool_decide_eq_false_2 _ Hout).
        unfold summarised in Hout.
        rewrite !elem_of_cons, elem_of_nil in Hout.
        rewrite !(bool_decide_eq_false_2 (f_reason f = _)) by tauto.
        simpl.
        rewrite !(bool_decide_eq_false_2 (_ = f_reason f))
          by (intros Heq; symmetry in Heq; tauto).
        rewrite !Z.add_0_r.
        destruct (decide ("other" = f_reason f)) as [Ho|Ho].
        + rewrite <- Ho. reflexivity.
        + rewrite (bool_decide_eq_false_2 _ Ho). simpl. done. }
    rewrite IH. by rewrite !Z.add_assoc.
Qed.

(** [C9], as the code has it.  [getFailureSummary()] returns, for each
    of no_endpoint, http_error, timeout and network_error, the number of
    retained failure records bearing that reason; [other] counts the
    records bearing any other reason, no_ws_endpoint and ws_send_error
    among them; the summary has no further entry. *)
Theorem failure_summary l :
  let summary := getFailureSummary l in
  (forall r, r ∈ summarised -> get_prop summary r = Some (count_reason r l))
  /\ get_prop summary "other" = Some (count_unlisted l)
  /\ (forall k, k ∉ summarised -> k <> "other" -> get_prop summary k = None).
Proof.
  intros summary. subst summary. unfold getFailureSummary.
  change [("no_endpoint", 0%Z); ("http_error", 0%Z); ("timeout", 0%Z);
          ("network_error", 0%Z); ("other", 0%Z)]
    with (summary_of 0 0 0 0 0).
  rewrite summary_fold. rewrite !Z.add_0_l.
  split; [|split].
  - intros r. unfold summarised. rewrite !elem_of_cons, elem_of_nil.
    intros Hr. repeat destruct Hr as [->|Hr]; try reflexivity. done.
  - reflexivity.
  - intros k. unfold summarised. rewrite !elem_of_cons, elem_of_nil.
    intros Hk Ho. simpl.
    repeat (case_bool_decide; [subst; tauto|]). done.
Qed.
End History.

Lemma failed_messages_limit_witness :
  (0 < 2)%Z /\
  getFailedMessages (Some 2%Z) three_failures =
  [failure "timeout" 2; failure "ws_send_error" 3] /\
  reverse (getFailedMessages (Some 2%Z) three_failures) =
  most_recent_first 2 three_failures.
Proof.
  split; [lia|]. split; [reflexivity|].
  apply (failed_messages_limit three_failures 2). lia.
Defined.

(** [C8] fails as stated: the records come oldest first, not most recent
    first. *)
Lemma failed_messages_not_most_recent_first :
  ~ (forall l n, (0 < n)%Z -> getFailedMessages (Some n) l = most_recent_first n l).
Proof.
  intros Hstated. specialize (Hstated three_failures 2%Z).
  vm_compute in Hstated. specialize (Hstated eq_refl). discriminate Hstated.
Qed.

Lemma zero_limit_returns_all_witness :
  failedMessages three_failures <> [] /\
  getFailedMessages (Some 0%Z) three_failures <> [].
Proof.
  split; [discriminate|].
  apply (zero_limit_returns_all three_failures). discriminate.
Defined.

Lemma failure_summary_witness :
  get_prop (getFailureSummary three_failures) "timeout" = Some 1%Z /\
  get_prop (getFailureSummary three_failures) "other" = Some 1%Z /\
  get_prop (getFailureSummary three_failures) "ws_send_error" = None.
Proof.
  destruct (failure_summary three_failures) as (Hlisted & Hother & Hnone).
  split; [|split].
  - rewrite Hlisted by (unfold summarised; repeat constructor). reflexivity.
  - rewrite Hother. reflexivity.
  - apply Hnone; [|discriminate].
    unfold summarised. rewrite !elem_of_cons, elem_of_nil.
    intros Hr. repeat destruct Hr as [Hr|Hr]; discriminate || done.
Defined.

(** [C9] fails as stated: the summary has no count for ws_send_error (nor
    for no_ws_endpoint); such records are counted under other. *)
Lemma summary_lacks_stream_reasons :
  ~ (forall l r, r ∈ taxonomy ->
                 get_prop (getFailureSummary l) r = Some (count_reason r l)).
Proof.
  intros Hstated. specialize (Hstated three_failures "ws_send_error").
  assert ("ws_send_error" ∈ taxonomy) as Hin
    by (unfold taxonomy; repeat constructor).
  specialize (Hstated Hin). vm_compute in Hstated. discriminate Hstated.
Qed.

(* --------------------------------------------------------------------- *)
(** ** The log call *)

Section LogCall.
Context `{Host}.
Implicit Types (st : State) (l : Logger) (m : object).

Lemma console_if_verbose_run method text st :
  console_if_verbose method text st = (Normal tt, console_line method text st).
Proof.
  unfold console_if_verbose, console_line, bind, get_this, when, emit,
    update_world, ret.
  destruct (verbose (this st)); simpl; try reflexivity. by destruct st.
Qed.

Lemma _logFailure_run failureInfo st :
  _logFailure failureInfo st =
  (Normal tt,
   console_line "error" "GELFLogger: Failed to emit log"
     {| this := with_failedMessages
                  (retain (maxFailedMessages (this st))
                          (failedMessages (this st)) failureInfo)
                  (this st);
        world := world st |}).
Proof.
  unfold _logFailure, console_if_verbose, console_line, retain, bind, update,
    get_this, when, emit, update_world, ret, verbose.
  simpl.
  destruct (Z.of_nat (length (failedMessages (this st) ++ [failureInfo]))
            >? maxFailedMessages (this st))%Z; simpl;
    destruct (consoleLog (this st) && negb (overloadConsole (this st)));
    reflexivity.
Qed.

Lemma failed_then_logFailure failureInfo st :
  (incr_failed;;; _logFailure failureInfo) st
  = (Normal tt, record_failure failureInfo st).
Proof.
  unfold bind at 1. unfold incr_failed, update at 1.
  by rewrite _logFailure_run.
Qed.

(** The [catch] block of [_log] completes normally and counts one
    failure. *)
Lemma _log_catch_run e st :
  _log_catch e st =
  (Normal tt,
   console_line "error" ("GELFLogger: Internal error: " +:+ err_message e)
     {| this := with_stats (with_failed (failed (stats (this st)) + 1)
                                        (stats (this st))) (this st);
        world := world st |}).
Proof.
  unfold _log_catch, console_if_verbose, console_line, incr_failed, bind,
    update, get_this, when, emit, update_world, ret, verbose.
  simpl.
  by destruct (consoleLog (this st) && negb (overloadConsole (this st))).
Qed.

Lemma _log_total level sm fm cf st :
  exists st',
    _log level sm fm cf st = (Normal tt, st') /\
    forall e st1,
      _log_try level sm (default_arg VNull fm) (default_arg (VObj []) cf) st
      = (Throw e, st1) ->
      stats (this st') =
      with_failed (failed (stats (this st1)) + 1) (stats (this st1)).
Proof.
  unfold _log, try_catch.
  destruct (_log_try _ _ _ _ st) as [[[]|e] st1] eqn:Htry.
  - eexists. split; [reflexivity|]. intros ? ? [=].
  - rewrite _log_catch_run. eexists. split; [reflexivity|].
    intros e' st1' [= <- <-]. reflexivity.
Qed.

Lemma level_method_is_log f :
  f ∈ level_methods ->
  exists level, forall sm fm cf st, f sm fm cf st = _log level sm fm cf st.
Proof.
  unfold level_methods. rewrite !elem_of_cons, elem_of_nil.
  intros Hf.
  repeat destruct Hf as [->|Hf]; try done;
    [exists EMERGENCY|exists ALERT|exists CRITICAL|exists ERROR
    |exists WARNING|exists WARNING|exists NOTICE|exists INFO|exists INFO
    |exists DEBUG];
    intros sm fm cf st; by destruct fm, cf.
Qed.

(** The part of the propagation policy that holds.  Every call of a
    level method (emergency, alert, critical, error, warning, warn, notice,
    info, log, debug), with any arguments, returns normally: it is a call of
    [_log], whose [catch] block turns an exception of record construction or
    dispatch into one more counted failure.  [exception] returns normally
    whenever its error argument is neither null nor undefined. *)
Lemma logging_never_raises st sm fm cf :
  (forall f, f ∈ level_methods ->
     exists level st',
       f sm fm cf st = _log level sm fm cf st /\
       f sm fm cf st = (Normal tt, st'))
  /\ (forall level,
        exists st',
          _log level sm fm cf st = (Normal tt, st') /\
          forall e st1,
            _log_try level sm (default_arg VNull fm)
                     (default_arg (VObj []) cf) st = (Throw e, st1) ->
            stats (this st') =
            with_failed (failed (stats (this st1)) + 1) (stats (this st1)))
  /\ (forall error,
        is_nullish error = false ->
        exists st', exception error cf st = (Normal tt, st')).
Proof.
  split; [|split].
  - intros f Hf. destruct (level_method_is_log f Hf) as [level Hlevel].
    destruct (_log_total level sm fm cf st) as (st' & Hrun & _).
    exists level, st'. by rewrite Hlevel.
  - intros level. apply _log_total.
  - intros error Herror. unfold exception, bind, lift.
    assert (forall k, exists v, read_prop error k = Normal v) as Hread.
    { intros k. destruct error; try discriminate; by eexists. }
    destruct (Hread "name") as [name ->].
    destruct (Hread "message") as [message ->].
    destruct (Hread "stack") as [stack ->].
    destruct (_log_total ERROR message stack
                (VObj (assign (spread (default_arg (VObj []) cf))
                         [("exception_type", name);
                          ("exception_message", message);
                          ("exception_stack", stack)])) st)
      as (st' & Hrun & _).
    by exists st'.
Qed.

(** [C1] [exception] breaks the propagation policy.  It reads
    [error.name], [error.message] and [error.stack] to build its fields
    before it enters [_log]: on an error argument that is null or undefined
    the read raises a TypeError, outside the [try] block of [_log].  The
    exception reaches the caller, and the logger is left as it was: no
    failure is counted. *)
Theorem exception_raises_on_nullish_error st error cf :
  is_nullish error = true ->
  exists e,
    exception error cf st = (Throw e, st) /\ err_name e = "TypeError".
Proof.
  intros Herror. destruct error; try discriminate Herror;
    eexists; split; reflexivity.
Qed.

End LogCall.

Example logging_never_raises_example :
  (exists st', @info sample_host (VStr "x") VNull VNull http_state
               = (Normal tt, st')) /\
  (exists st',
      @_log sample_host INFO (VStr "x") VNull VNull http_state = (Normal tt, st')
      /\ failed (stats (this st')) = 1%Z) /\
  (exists st',
      @exception sample_host
        (VObj [("name", VStr "Error"); ("message", VStr "boom");
               ("stack", VStr "Error: boom")]) VNull http_state
      = (Normal tt, st')).
Proof.
  destruct (@logging_never_raises sample_host http_state (VStr "x") VNull VNull)
    as (Hmethods & Hlog & Hexception).
  split; [|split].
  - destruct (Hmethods (@info sample_host)) as (level & st' & _ & Hrun).
    + unfold level_methods. repeat constructor.
    + by exists st'.
  - destruct (Hlog INFO) as (st' & Hrun & Hcount).
    exists st'. split; [exact Hrun|].
    rewrite (Hcount _ _ eq_refl). reflexivity.
  - apply Hexception. reflexivity.
Qed.

Lemma exception_raises_on_nullish_error_witness :
  is_nullish VUndefined = true /\
  exists e,
    @exception sample_host VUndefined VUndefined http_state = (Throw e, http_state)
    /\ err_name e = "TypeError".
Proof.
  split; [reflexivity|].
  apply (@exception_raises_on_nullish_error sample_host http_state VUndefined
           VUndefined).
  reflexivity.
Defined.



Example info_null_custom_fields :
  @info sample_host (VStr "x") VNull VNull http_state =
  (Normal tt,
   {| this := with_stats {| sent := 0; failed := 1; skipped := 0 |} http_logger;
      world := http_world |}).
Proof. reflexivity. Qed.

(* --------------------------------------------------------------------- *)
(** ** The one-shot transport *)

Section OneShot.
Context `{Host}.
Implicit Types (st : State) (l : Logger) (m : object).








End OneShot.

Section OneShotSend.
Context `{Host}.
Implicit Types (st : State) (l : Logger) (m : object).

Lemma filter_all_kept {A} (xs : list A) : filter (fun _ => True) xs = xs.
Proof.
  induction xs as [|x xs IH]; [done|].
  by rewrite filter_cons, decide_True, IH.
Qed.








End OneShotSend.


(* --------------------------------------------------------------------- *)
(** ** The stream transport: opening with credentials *)

Section StreamOpen.
Context `{Host}.
Implicit Types (st : State) (l : Logger) (m : object).

(** One turn of the loop of [_processWebSocketQueue]. *)
Lemma drain_cons c q message rest st :
  drain c q (message :: rest) st =
  match JSON_stringify (VObj message) with
  | Throw e => (Normal tt, requeued q message rest e (shifted q rest st))
  | Normal text =>
      match c with
      | None =>
          (Normal tt,
           requeued q message rest
             (TypeError "Cannot read properties of null (reading 'send')")
             (shifted q rest st))
      | Some c' =>
          match WebSocket_send c' text with
          | Some e => (Normal tt, requeued q message rest e (shifted q rest st))
          | None => drain c q rest (delivered c' text (shifted q rest st))
          end
      end
  end.
Proof.
  cbn [drain]. unfold bind at 1, set_queue at 1, update_world at 1.
  fold (shifted q rest st). unfold bind at 1, try_catch.
  unfold bind at 1, lift.
  assert (forall e,
             (incr_failed;;;
              let* now := Date_now in
              _logFailure {| f_message := message; f_reason := "ws_send_error";
                             f_error := err_message e; f_endpoint := None;
                             f_timestamp := now |};;;
              set_queue q (message :: rest);;;
              ret false) (shifted q rest st)
             = (Normal false, requeued q message rest e (shifted q rest st)))
    as Hfail.
  { intros e. unfold bind, incr_failed, update, Date_now.
    rewrite _logFailure_run. reflexivity. }
  destruct (JSON_stringify (VObj message)) as [text|e].
  - unfold bind at 1, socket_send. destruct c as [c'|].
    + destruct (WebSocket_send c' text) as [e|].
      * unfold throw. by rewrite Hfail.
      * reflexivity.
    + unfold throw. by rewrite Hfail.
  - by rewrite Hfail.
Qed.

Lemma same_timers_requeued q message rest e st :
  same_timers st (requeued q message rest e (shifted q rest st)).
Proof.
  unfold same_timers, requeued, record_failure, console_line, shifted, timers.
  simpl. destruct (verbose _); simpl; [|done].
  rewrite filter_app. simpl. by rewrite app_nil_r.
Qed.

Lemma same_timers_delivered q rest c text st :
  same_timers st (delivered c text (shifted q rest st)).
Proof.
  unfold same_timers, delivered, shifted, timers. simpl.
  rewrite filter_app. simpl. by rewrite app_nil_r.
Qed.

Lemma same_timers_trans st1 st2 st3 :
  same_timers st1 st2 -> same_timers st2 st3 -> same_timers st1 st3.
Proof.
  unfold same_timers. intros (-> & -> & ->) (-> & -> & ->). done.
Qed.

Lemma drain_same_timers c q queue st :
  (drain c q queue st).1 = Normal tt /\
  same_timers st (drain c q queue st).2.
Proof.
  revert st. induction queue as [|message rest IH]; intros st.
  - by repeat split.
  - rewrite drain_cons.
    destruct (JSON_stringify (VObj message)) as [text|e];
      [destruct c as [c'|]; [destruct (WebSocket_send c' text) as [e|]|]|];
      try (split; [reflexivity|apply same_timers_requeued]).
    destruct (IH (delivered c' text (shifted q rest st))) as [Hn Ht].
    split; [exact Hn|].
    eapply same_timers_trans; [apply same_timers_delivered|exact Ht].
Qed.

Lemma process_same_timers st :
  (_processWebSocketQueue st).1 = Normal tt /\
  same_timers st (_processWebSocketQueue st).2.
Proof.
  unfold _processWebSocketQueue, bind, get_this, get_world, get_queue.
  destruct (connection_open (this st) (world st)); simpl.
  - apply drain_same_timers.
  - by repeat split.
Qed.

Lemma keeps_bind {A B} (c : M A) (k : A -> M B) :
  keeps_no_onmessage c -> (forall a, keeps_no_onmessage (k a)) ->
  keeps_no_onmessage (bind c k).
Proof.
  intros Hc Hk st Hst. unfold bind. specialize (Hc st Hst).
  destruct (c st) as [[a|e] st']; simpl in *; [by apply Hk|done].
Qed.

Lemma keeps_try_catch {A} (c : M A) (h : JsError -> M A) :
  keeps_no_onmessage c -> (forall e, keeps_no_onmessage (h e)) ->
  keeps_no_onmessage (try_catch c h).
Proof.
  intros Hc Hh st Hst. unfold try_catch. specialize (Hc st Hst).
  destruct (c st) as [[a|e] st']; simpl in *; [done|by apply Hh].
Qed.

Lemma keeps_same_sockets {A} (c : M A) :
  (forall st, sockets (world (c st).2) = sockets (world st)) ->
  keeps_no_onmessage c.
Proof. intros Hc st Hst. unfold no_onmessage. by rewrite Hc. Qed.

Lemma keeps_update_socket c f :
  (forall s, onmessage (f s) = onmessage s) ->
  keeps_no_onmessage (update_socket c f).
Proof.
  intros Hf st Hst. unfold update_socket, update_world, no_onmessage in *.
  simpl. destruct (sockets (world st) !! c) as [s|] eqn:Hs; simpl; [|done].
  apply Forall_insert; [done|]. rewrite Hf.
  by eapply (Forall_lookup_1 _ _ _ _ Hst).
Qed.

Lemma keeps_new_WebSocket url : keeps_no_onmessage (new_WebSocket url).
Proof.
  intros st Hst. unfold new_WebSocket.
  destruct (WebSocket_new url); [done|].
  unfold bind, get_world, update_world, emit, ret, no_onmessage in *. simpl.
  apply Forall_app. split; [done|]. by repeat constructor.
Qed.

Lemma keeps_console method text : keeps_no_onmessage (console_if_verbose method text).
Proof.
  apply keeps_same_sockets. intros st. rewrite console_if_verbose_run.
  unfold console_line. simpl. by destruct (verbose _).
Qed.

(** [_connectWebSocket] assigns no [onmessage]. *)
Lemma connect_assigns_no_onmessage : keeps_no_onmessage _connectWebSocket.
Proof.
  unfold _connectWebSocket.
  apply keeps_bind; [by apply keeps_same_sockets|]. intros l.
  destruct (wsConnecting l); [by apply keeps_same_sockets|].
  apply keeps_bind; [by apply keeps_same_sockets|]. intros _.
  apply keeps_try_catch.
  - apply keeps_bind; [apply keeps_new_WebSocket|]. intros c.
    repeat (apply keeps_bind; [|intros _]);
      first [by apply keeps_update_socket|by apply keeps_same_sockets].
  - intros e. apply keeps_bind; [by apply keeps_same_sockets|]. intros _.
    apply keeps_console.
Qed.

(** [C6], what the code does.  When the socket of a logger with
    credentials opens, and [wsAuthTimeout] has not been set on the
    instance, the handshake message is sent; the handler then evaluates
    [config?.wsAuthTimeout], in which [config] is an identifier that
    neither the method nor the global scope declares; the ReferenceError is
    caught by the handler's own [catch], which drains the queue at once.
    No authentication timer is started, and draining does not wait for an
    acknowledgment.  Sockets never get an [onmessage] handler, so an
    acknowledgment changes nothing. *)
Theorem onopen_drains_without_waiting st c text :
  wsConnection (this st) = Some c ->
  str_truthy (accessId (this st)) = true ->
  str_truthy (accessSecret (this st)) = true ->
  truthy (wsAuthTimeout (this st)) = false ->
  get_prop globalThis "config" = None ->
  JSON_stringify (authMsg (this st)) = Normal text ->
  WebSocket_send c text = None ->
  let opened :=
    console_line "log" "GELFLogger: WebSocket connected"
      {| this := with_wsReconnectAttempts 0 (with_wsConnecting false (this st));
         world := world st |} in
  let handshaken :=
    {| this := with_wsAuthenticated false (this opened);
       world := with_trace (trace (world opened) ++ [ESocketSend c text])
                           (world opened) |} in
  onopen_handler st = _processWebSocketQueue handshaken
  /\ (onopen_handler st).1 = Normal tt
  /\ timers (world (onopen_handler st).2) = timers (world st)
  /\ _wsAuthTimer (this (onopen_handler st).2) = _wsAuthTimer (this st)
  /\ (forall s data,
        sockets (world st) !! c = Some s -> onmessage s = false ->
        message_event c data st = (Normal tt, st))
  /\ (no_onmessage st -> no_onmessage (_connectWebSocket st).2).
Proof.
  intros Hconn Hid Hsecret Htimeout Hconfig Htext Hsend opened handshaken.
  assert (onopen_handler st = _processWebSocketQueue handshaken) as Hrun.
  { unfold onopen_handler.
    unfold bind at 1, update at 1.
    unfold bind at 1, update at 1.
    unfold bind at 1. rewrite console_if_verbose_run.
    unfold bind at 1, update at 1.
    unfold bind at 1, get_this at 1.
    match goal with
    | |- context [str_truthy (accessId ?l)] =>
        change (accessId l) with (accessId (this st));
        change (accessSecret l) with (accessSecret (this st));
        change (authMsg l) with (authMsg (this st));
        change (wsConnection l) with (wsConnection (this st));
        change (wsAuthTimeout l) with (wsAuthTimeout (this st))
    end.
    rewrite Hid, Hsecret. simpl andb. cbv iota.
    unfold try_catch, bind at 1, lift. rewrite Htext.
    unfold bind at 1, socket_send. rewrite Hconn, Hsend.
    unfold emit, update_world.
    unfold bind at 1. rewrite Htimeout. simpl negb. cbv iota.
    unfold bind at 1, lookup_identifier. rewrite Hconfig. unfold throw.
    reflexivity. }
  destruct (process_same_timers handshaken) as (Hnormal & Htimers & _ & Hauth).
  fold (same_timers) in *.
  repeat apply conj.
  - exact Hrun.
  - by rewrite Hrun.
  - rewrite Hrun, Htimers. subst handshaken opened.
    unfold timers, console_line. simpl.
    destruct (verbose _); simpl; rewrite ?filter_app; simpl;
      by rewrite ?app_nil_r.
  - by rewrite Hrun, Hauth.
  - intros s data Hs Hno. unfold message_event, bind, get_world. simpl.
    by rewrite Hs, Hno.
  - apply connect_assigns_no_onmessage.
Qed.
End StreamOpen.

Lemma onopen_drains_without_waiting_witness :
  wsConnection (this ws_state) = Some 0%nat /\
  get_prop (@globalThis sample_host) "config" = None /\
  timers (world (@onopen_handler sample_host ws_state).2) = [] /\
  _wsAuthTimer (this (@onopen_handler sample_host ws_state).2) = None /\
  sent (stats (this (@onopen_handler sample_host ws_state).2)) = 1%Z /\
  arrays (world (@onopen_handler sample_host ws_state).2) = [[]].
Proof.
  pose proof (@onopen_drains_without_waiting sample_host ws_state 0%nat _
                eq_refl eq_refl eq_refl eq_refl eq_refl eq_refl eq_refl)
    as (Hrun & _ & Htimers & Hauth & _).
  split; [reflexivity|]. split; [reflexivity|].
  split; [rewrite Htimers; reflexivity|].
  split; [rewrite Hauth; reflexivity|].
  rewrite Hrun. split; reflexivity.
Defined.

(* --------------------------------------------------------------------- *)
(** ** Child loggers *)

Section Child.
Context `{Host}.
Implicit Types (st : State) (l : Logger).

End Child.



(* ===================================================================== *)
(** * Further properties *)
(* ===================================================================== *)

(* --------------------------------------------------------------------- *)
(** ** Reasoning about statements *)

Section Triples.
Context `{Host}.
Implicit Types (P Q R E : State -> Prop) (p : Logger -> Prop).

Lemma triple_bind {A B} P R Q E (c : M A) (k : A -> M B) :
  triple P c R E -> (forall a, triple R (k a) Q E) -> triple P (bind c k) Q E.
Proof.
  intros Hc Hk st HP. unfold bind. specialize (Hc st HP).
  destruct (c st) as [[a|e] st']; [by apply Hk|done].
Qed.

Lemma triple_try_catch {A} P Q R E (c : M A) (h : JsError -> M A) :
  triple P c Q R -> (forall e, triple R (h e) Q E) ->
  triple P (try_catch c h) Q E.
Proof.
  intros Hc Hh st HP. unfold try_catch. specialize (Hc st HP).
  destruct (c st) as [[a|e] st']; [done|by apply Hh].
Qed.

Lemma triple_weaken {A} P P' Q Q' E E' (c : M A) :
  triple P c Q E ->
  (forall st, P' st -> P st) -> (forall st, Q st -> Q' st) ->
  (forall st, E st -> E' st) ->
  triple P' c Q' E'.
Proof.
  intros Hc HP HQ HE st HP'. specialize (Hc st (HP st HP')).
  destruct (c st) as [[a|e] st']; auto.
Qed.

Lemma triple_quiet {A} p E (c : M A) :
  quiet c -> triple (on_this p) c (on_this p) E.
Proof.
  intros Hc st Hp. destruct (Hc st) as (a & st' & -> & Hthis).
  unfold on_this in *. by rewrite Hthis.
Qed.

Lemma triple_still {A} p (c : M A) :
  still c -> triple (on_this p) c (on_this p) (on_this p).
Proof.
  intros Hc st Hp. specialize (Hc st). unfold on_this in *.
  destruct (c st) as [[a|e] st']; simpl in Hc; by rewrite Hc.
Qed.

Lemma triple_update p q E (f : Logger -> Logger) :
  (forall l, p l -> q (f l)) -> triple (on_this p) (update f) (on_this q) E.
Proof. intros Hf st Hp. by apply Hf. Qed.

Lemma quiet_ret {A} (a : A) : quiet (ret a).
Proof. intros st. by eexists _, _. Qed.

Lemma quiet_get_this : quiet get_this.
Proof. intros st. by eexists _, _. Qed.

Lemma quiet_get_world : quiet get_world.
Proof. intros st. by eexists _, _. Qed.

Lemma quiet_Date_now : quiet Date_now.
Proof. intros st. by eexists _, _. Qed.

Lemma quiet_get_queue q : quiet (get_queue q).
Proof. intros st. by eexists _, _. Qed.

Lemma quiet_update_world f : quiet (update_world f).
Proof. intros st. by eexists _, _. Qed.

Lemma quiet_emit e : quiet (emit e).
Proof. intros st. by eexists _, _. Qed.

Lemma quiet_set_queue q items : quiet (set_queue q items).
Proof. intros st. by eexists _, _. Qed.

Lemma quiet_update_socket c f : quiet (update_socket c f).
Proof. intros st. by eexists _, _. Qed.

Lemma quiet_clearTimeout id : quiet (clearTimeout id).
Proof. intros st. by eexists _, _. Qed.

Lemma quiet_setTimeout cb delay : quiet (setTimeout cb delay).
Proof.
  intros st. unfold setTimeout, bind, get_world, update_world, emit, ret.
  simpl. by eexists _, _.
Qed.

Lemma quiet_console method text : quiet (console_if_verbose method text).
Proof.
  intros st. rewrite console_if_verbose_run. by eexists _, _.
Qed.

Lemma quiet_console_mirror level sm fm : quiet (console_mirror level sm fm).
Proof. intros st. by eexists _, _. Qed.

Lemma still_lift {A} (c : completion A) : still (lift c).
Proof. by intros st. Qed.

Lemma still_throw {A} e : still (@throw A e).
Proof. by intros st. Qed.

Lemma still_lookup_identifier name : still (lookup_identifier name).
Proof. intros st. unfold lookup_identifier. by destruct (get_prop _ _). Qed.

Lemma still_socket_send c text : still (socket_send c text).
Proof.
  intros st. unfold socket_send. destruct c as [c|]; [|done].
  by destruct (WebSocket_send c text).
Qed.

Lemma still_new_WebSocket url : still (new_WebSocket url).
Proof.
  intros st. unfold new_WebSocket. by destruct (WebSocket_new url).
Qed.
End Triples.

Create HintDb statements discriminated.
#[export] Hint Resolve quiet_ret quiet_get_this quiet_get_world quiet_Date_now
  quiet_get_queue quiet_update_world quiet_emit quiet_set_queue
  quiet_update_socket quiet_clearTimeout quiet_setTimeout quiet_console
  quiet_console_mirror still_lift still_throw still_lookup_identifier
  still_socket_send still_new_WebSocket : statements.


(* --------------------------------------------------------------------- *)
(** ** What every operation keeps *)

Section Invariants.
Context `{Host}.
Variables (l0 : Logger) (s0 : Stats) (B C D : Prop).

Local Abbreviation J n := (on_this (sound l0 s0 B C D n)).

Ltac solve_sound :=
  let l := fresh "l" in
  let Hconfig := fresh in let Hb := fresh in let Hc := fresh in
  let Hd := fresh in
  intros l (Hconfig & Hb & Hc & Hd);
  unfold sound, same_config, history_bounded, history_counted, counters_from
    in *;
  simpl;
  repeat apply conj; try tauto;
  try (intros HB; specialize (Hb HB); simpl in *; lia);
  try (intros HC; specialize (Hc HC); simpl in *; lia);
  try (intros HD; specialize (Hd HD); simpl in *; lia).

Lemma triple_update_keep n E (f : Logger -> Logger) :
  (forall l, sound l0 s0 B C D n l -> sound l0 s0 B C D n (f l)) ->
  triple (J n) (update f) (J n) E.
Proof. apply triple_update. Qed.

Lemma triple_incr_failed n E : triple (J n) incr_failed (J (S n)) E.
Proof. apply triple_update. solve_sound. Qed.

Lemma retain_length max history failureInfo :
  (Z.of_nat (length history) <= Z.max 0 max)%Z ->
  (Z.of_nat (length (retain max history failureInfo)) <= Z.max 0 max)%Z /\
  (length (retain max history failureInfo) <= S (length history))%nat.
Proof.
  intros Hlen. unfold retain.
  destruct (Z.of_nat (length (history ++ [failureInfo])) >? max)%Z eqn:Hgt.
  - destruct history as [|f history]; simpl in *; rewrite ?length_app; simpl; lia.
  - rewrite Z.gtb_ltb in Hgt. apply Z.ltb_ge in Hgt.
    rewrite length_app in *. simpl in *. lia.
Qed.

Lemma retain_length_le max history failureInfo :
  (length (retain max history failureInfo) <= S (length history))%nat.
Proof.
  unfold retain.
  destruct (Z.of_nat (length (history ++ [failureInfo])) >? max)%Z;
    [destruct history; simpl|]; rewrite ?length_app; simpl; lia.
Qed.

Lemma triple_logFailure n r E : triple (J (S n)) (_logFailure r) (J n) E.
Proof.
  intros st (Hconfig & Hb & Hc & Hd). rewrite _logFailure_run.
  unfold on_this, console_line. cbn [this].
  unfold sound, same_config, history_bounded, history_counted, counters_from
    in *.
  cbn. repeat apply conj; try tauto.
  - intros HB. by apply retain_length, Hb.
  - intros HC. specialize (Hc HC).
    pose proof (retain_length_le (maxFailedMessages (this st))
                  (failedMessages (this st)) r). lia.
Qed.

Lemma sound_settle n l : sound l0 s0 B C D (S n) l -> sound l0 s0 B C D n l.
Proof.
  intros (Hconfig & Hb & Hc & Hd).
  split; [done|]. split; [done|]. split; [|done].
  intros HC. specialize (Hc HC). unfold history_counted in *. lia.
Qed.

Ltac walk :=
  cbv beta zeta;
  first
    [ solve [eauto]
    | lazymatch goal with
      | |- triple _ (bind _ _) _ _ =>
          eapply triple_bind; [walk | intros ?; walk]
      | |- triple _ (try_catch _ _) _ _ =>
          eapply triple_try_catch; [walk | intros ?; walk]
      | |- triple _ (when _ _) _ _ => unfold when; walk
      | |- triple _ (if ?b then _ else _) _ _ => destruct b eqn:?; walk
      | |- triple _ (match ?x with _ => _ end) _ _ => destruct x eqn:?; walk
      | |- triple _ incr_failed _ _ => apply triple_incr_failed
      | |- triple _ (_logFailure _) _ _ => apply triple_logFailure
      | |- triple _ incr_sent _ _ => unfold incr_sent; walk
      | |- triple _ incr_skipped _ _ => unfold incr_skipped; walk
      | |- triple _ _cleanupPromises _ _ => unfold _cleanupPromises; walk
      | |- triple _ (update _) _ _ => apply triple_update_keep; solve_sound
      | |- _ =>
          first [ apply triple_quiet; solve [auto with statements]
                | apply triple_still; solve [auto with statements] ]
      end ].

Lemma triple_drain c q queue : triple (J 0) (drain c q queue) (J 0) (J 0).
Proof.
  induction queue as [|message rest IH]; cbn [drain]; walk.
Qed.

Lemma triple_process :
  triple (J 0) _processWebSocketQueue (J 0) (J 0).
Proof.
  pose proof triple_drain. unfold _processWebSocketQueue. walk.
Qed.

Lemma triple_connect : triple (J 0) _connectWebSocket (J 0) (J 0).
Proof. unfold _connectWebSocket. walk. Qed.

Lemma triple_sendWebSocket m : triple (J 0) (_sendWebSocket m) (J 0) (J 0).
Proof.
  pose proof triple_process. pose proof triple_connect.
  unfold _sendWebSocket. walk.
Qed.

Lemma triple_send m : triple (J 0) (_send m) (J 0) (J 0).
Proof.
  pose proof triple_sendWebSocket. unfold _send. walk.
Qed.

Lemma triple_log_catch e : triple (J 0) (_log_catch e) (J 0) (J 0).
Proof.
  unfold _log_catch.
  eapply triple_bind; [apply triple_incr_failed|]. intros _.
  apply (triple_weaken (J 1) (J 1) (J 1) (J 0) (J 0) (J 0));
    [apply triple_quiet; auto with statements|auto| |auto].
  intros st. apply sound_settle.
Qed.

Lemma triple_log level sm fm cf : triple (J 0) (_log level sm fm cf) (J 0) (J 0).
Proof.
  pose proof triple_send. pose proof triple_log_catch.
  unfold _log, _log_try. walk.
Qed.

Lemma triple_exception error cf : triple (J 0) (exception error cf) (J 0) (J 0).
Proof.
  pose proof triple_log. unfold exception. walk.
Qed.

Lemma triple_send_then m t resp : triple (J 0) (send_then m t resp) (J 0) (J 0).
Proof. unfold send_then. walk. Qed.

Lemma triple_send_catch m t error :
  triple (J 0) (send_catch m t error) (J 0) (J 0).
Proof. unfold send_catch. walk. Qed.

Lemma triple_onopen : triple (J 0) onopen_handler (J 0) (J 0).
Proof. pose proof triple_process. unfold onopen_handler. walk. Qed.

Lemma triple_onclose : triple (J 0) onclose_handler (J 0) (J 0).
Proof. unfold onclose_handler. walk. Qed.

Lemma triple_onerror : triple (J 0) onerror_handler (J 0) (J 0).
Proof. unfold onerror_handler. walk. Qed.

Lemma triple_auth_timer : triple (J 0) auth_timer_fired (J 0) (J 0).
Proof. pose proof triple_process. unfold auth_timer_fired. walk. Qed.

Lemma triple_clear : triple (J 0) clearFailedMessages (J 0) (J 0).
Proof. unfold clearFailedMessages. walk. Qed.

(** Every operation other than [resetStats] keeps the assertion. *)
Lemma triple_perform op :
  op <> ResetStats -> triple (J 0) (perform op) (J 0) (J 0).
Proof.
  intros Hop.
  destruct op; simpl; try done;
    auto using triple_log, triple_exception, triple_send_then,
      triple_send_catch, triple_onopen, triple_onclose, triple_onerror,
      triple_auth_timer, triple_connect, triple_clear.
Qed.

Lemma perform_keeps op st :
  op <> ResetStats -> J 0 st -> J 0 (perform op st).2.
Proof.
  intros Hop HJ. pose proof (triple_perform op Hop st HJ) as Hrun.
  by destruct (perform op st) as [[[]|e] st'].
Qed.
End Invariants.

Section Sequences.
Context `{Host}.
Implicit Types (st : State) (ops : list operation).

Lemma same_config_refl l : same_config l l.
Proof. by repeat split. Qed.

Lemma same_config_trans l1 l2 l3 :
  same_config l1 l2 -> same_config l2 l3 -> same_config l1 l3.
Proof.
  unfold same_config. intros H12 H23. destruct_and!.
  repeat split; congruence.
Qed.

Lemma resetStats_run st :
  resetStats st =
  (Normal tt,
   {| this := with_failedMessages []
                (with_stats {| sent := 0; failed := 0; skipped := 0 |} (this st));
      world := world st |}).
Proof. reflexivity. Qed.

Lemma after_cons op ops st : after (op :: ops) st = after ops (perform op st).2.
Proof. reflexivity. Qed.

(** One operation keeps the configuration, the bound and the count. *)
Lemma perform_sound op st (B C : Prop) :
  (B -> history_bounded (this st)) -> (C -> history_counted 0 (this st)) ->
  same_config (this st) (this (perform op st).2)
  /\ (B -> history_bounded (this (perform op st).2))
  /\ (C -> history_counted 0 (this (perform op st).2)).
Proof.
  intros Hb Hc.
  assert (op = ResetStats \/ op <> ResetStats) as [->|Hop]
    by (destruct op; (by left) || (by right)).
  - change (perform ResetStats st) with (resetStats st).
    rewrite resetStats_run. simpl. split; [by repeat split|].
    split; intros HX.
    + specialize (Hb HX). unfold history_bounded in *. simpl. lia.
    + unfold history_counted. simpl. lia.
  - destruct (perform_keeps (this st) (stats (this st)) B C False op st Hop)
      as (Hconfig & Hb' & Hc' & _).
    + split; [apply same_config_refl|]. by repeat split.
    + done.
Qed.

(** No operation changes a setting of the logger: session identifier,
    endpoints, transport selection, credentials, host, facility, ambient
    context, global fields, minimum level, console flags, timeout and the
    two limits stay as the constructor left them, whatever is logged and
    whatever the transport reports. *)
Theorem configuration_is_immutable ops st :
  same_config (this st) (this (after ops st)).
Proof.
  revert st. induction ops as [|op ops IH]; intros st.
  - apply same_config_refl.
  - rewrite after_cons. eapply same_config_trans; [|apply IH].
    by apply (perform_sound op st False False).
Qed.

(** A failure history within its bound stays within it: after any run of
    log calls, transport events and resets, the logger retains at most
    [maxFailedMessages] failure records, and none when that bound is
    negative. *)
Theorem history_stays_bounded ops st :
  history_bounded (this st) -> history_bounded (this (after ops st)).
Proof.
  revert st. induction ops as [|op ops IH]; intros st Hb; [done|].
  rewrite after_cons. apply IH.
  by apply (perform_sound op st True False).
Qed.

(** The failed counter never falls behind the history: if every retained
    failure record has been counted, that remains so after any run of
    operations, including [clearFailedMessages] and [resetStats]. *)
Theorem retained_failures_are_counted ops st :
  history_counted 0 (this st) -> history_counted 0 (this (after ops st)).
Proof.
  revert st. induction ops as [|op ops IH]; intros st Hc; [done|].
  rewrite after_cons. apply IH.
  by apply (perform_sound op st False True).
Qed.

Lemma counters_from_trans s0 l1 l2 :
  counters_from s0 l1 -> counters_from (stats l1) l2 -> counters_from s0 l2.
Proof. unfold counters_from. lia. Qed.

(** The counters sent, failed and skipped never decrease, except by
    [resetStats]. *)
Theorem counters_never_decrease ops st :
  ResetStats ∉ ops -> counters_from (stats (this st)) (this (after ops st)).
Proof.
  revert st. induction ops as [|op ops IH]; intros st Hops.
  - unfold counters_from. simpl. lia.
  - rewrite after_cons.
    apply not_elem_of_cons in Hops as [Hop Hops].
    eapply counters_from_trans; [|by apply IH].
    destruct (perform_keeps (this st) (stats (this st)) False False True
                op st (not_eq_sym Hop)) as (_ & _ & _ & Hd).
    + split; [apply same_config_refl|]. repeat split; try done.
      all: unfold counters_from; intros; lia.
    + by apply Hd.
Qed.
End Sequences.

Lemma history_stays_bounded_witness :
  history_bounded (this http_state) /\
  history_bounded (this (@after sample_host sample_ops http_state)).
Proof.
  assert (history_bounded (this http_state)) as Hb
    by (unfold history_bounded; simpl; lia).
  split; [exact Hb|].
  apply (@history_stays_bounded sample_host sample_ops http_state Hb).
Defined.

Lemma retained_failures_are_counted_witness :
  history_counted 0 (this http_state) /\
  history_counted 0 (this (@after sample_host sample_ops http_state)).
Proof.
  assert (history_counted 0 (this http_state)) as Hc
    by (unfold history_counted; simpl; lia).
  split; [exact Hc|].
  apply (@retained_failures_are_counted sample_host sample_ops http_state Hc).
Defined.

Lemma counters_never_decrease_witness :
  (ResetStats ∉ sample_ops) /\
  counters_from (stats (this http_state))
                (this (@after sample_host sample_ops http_state)).
Proof.
  assert (ResetStats ∉ sample_ops) as Hops.
  { unfold sample_ops. rewrite !not_elem_of_cons. repeat split; try discriminate.
    apply not_elem_of_nil. }
  split; [exact Hops|].
  apply (@counters_never_decrease sample_host sample_ops http_state Hops).
Defined.

Example sample_ops_outcome :
  getStats (this (@after sample_host sample_ops http_state)) =
  {| v_sent := 0; v_failed := 3; v_skipped := 1; failedMessagesCount := 0 |}.
Proof. reflexivity. Qed.

(* --------------------------------------------------------------------- *)
(** ** Draining the queue of the stream transport *)

Section Drain.
Context `{Host}.
Implicit Types (st : State) (queue : list object) (c q : nat).

Lemma taken_left_over c queue : (taken c queue ++ left_over c queue)%list = queue.
Proof.
  induction queue as [|message rest IH]; simpl; [done|].
  destruct (accepted c message); simpl; [by rewrite IH|done].
Qed.

Lemma left_over_refused c queue message rest :
  left_over c queue = message :: rest -> accepted c message = false.
Proof.
  induction queue as [|m queue IH]; simpl; [done|].
  destruct (accepted c m) eqn:Hm; [done|]. by intros [= <- _].
Qed.

Lemma all_accepted c queue :
  Forall (fun message => accepted c message = true) queue ->
  taken c queue = queue /\ left_over c queue = [].
Proof.
  induction 1 as [|message rest Hm _ [IHt IHl]]; simpl; [done|].
  by rewrite Hm, IHt, IHl.
Qed.

Lemma requeued_outcome c q message rest e st :
  let st' := requeued q message rest e (shifted q rest st) in
  arrays (world st') = <[q := message :: rest]> (arrays (world st))
  /\ frames_on c (world st') = frames_on c (world st)
  /\ sent (stats (this st')) = sent (stats (this st))
  /\ failed (stats (this st')) = (failed (stats (this st)) + 1)%Z
  /\ sockets (world st') = sockets (world st)
  /\ skipped (stats (this st')) = skipped (stats (this st)).
Proof.
  unfold requeued, record_failure, console_line, shifted, frames_on. simpl.
  repeat match goal with
         | |- context [if ?b then _ else _] => destruct b
         end; simpl; rewrite ?omap_app, ?list_insert_insert_eq; simpl;
    rewrite ?app_nil_r; done.
Qed.

Lemma delivered_outcome c q text rest st :
  let st' := delivered c text (shifted q rest st) in
  arrays (world st') = <[q := rest]> (arrays (world st))
  /\ frames_on c (world st') = (frames_on c (world st) ++ [text])%list
  /\ sent (stats (this st')) = (sent (stats (this st)) + 1)%Z
  /\ failed (stats (this st')) = failed (stats (this st))
  /\ sockets (world st') = sockets (world st)
  /\ failedMessages (this st') = failedMessages (this st)
  /\ skipped (stats (this st')) = skipped (stats (this st)).
Proof.
  unfold delivered, shifted, frames_on. simpl.
  rewrite omap_app. simpl. by rewrite bool_decide_eq_true_2.
Qed.

(** The state in which the loop stops. *)
Lemma drain_outcome c q queue st :
  (q < length (arrays (world st)))%nat ->
  let st' := (drain (Some c) q queue st).2 in
  (queue = [] -> st' = st)
  /\ (queue <> [] ->
      arrays (world st') = <[q := left_over c queue]> (arrays (world st)))
  /\ frames_on c (world st') =
       (frames_on c (world st) ++ (frame <$> taken c queue))%list
  /\ sent (stats (this st')) =
       (sent (stats (this st)) + Z.of_nat (length (taken c queue)))%Z
  /\ failed (stats (this st')) =
       (failed (stats (this st))
        + match left_over c queue with [] => 0 | _ => 1 end)%Z
  /\ sockets (world st') = sockets (world st)
  /\ (left_over c queue = [] -> failedMessages (this st') = failedMessages (this st))
  /\ skipped (stats (this st')) = skipped (stats (this st)).
Proof.
  revert st. induction queue as [|message rest IH]; intros st Hq.
  - simpl. repeat split; try done; rewrite ?app_nil_r; try lia; done.
  - rewrite drain_cons. cbn [taken left_over]. unfold accepted.
    destruct (JSON_stringify (VObj message)) as [text|e] eqn:Htext.
    + destruct (WebSocket_send c text) as [e|] eqn:Hsend.
      * destruct (requeued_outcome c q message rest e st)
          as (Harrays & Hframes & Hsent & Hfailed & Hsockets & Hskipped).
        cbn [snd]. rewrite Harrays, Hframes, Hsent, Hfailed, Hsockets, Hskipped.
        simpl. rewrite app_nil_r. repeat split; try done; lia.
      * set (st1 := delivered c text (shifted q rest st)).
        destruct (delivered_outcome c q text rest st)
          as (Ha1 & Hf1 & Hs1 & Hx1 & Hk1 & Hh1 & Hp1).
        fold st1 in Ha1, Hf1, Hs1, Hx1, Hk1, Hh1, Hp1.
        assert (q < length (arrays (world st1)))%nat as Hq1
          by (rewrite Ha1; by rewrite length_insert).
        destruct (IH st1 Hq1) as (Hnil & Harrays & Hframes & Hsent & Hfailed
                                  & Hsockets & Hhistory & Hskipped).
        cbn [snd].
        split; [done|]. split.
        { intros _. destruct rest as [|m' rest'].
          - rewrite (Hnil eq_refl). exact Ha1.
          - rewrite Harrays by done. rewrite Ha1.
            by rewrite list_insert_insert_eq. }
        split.
        { rewrite Hframes, Hf1. rewrite <- app_assoc. simpl.
          assert (frame message = text) as ->; [|done].
          unfold frame. by rewrite Htext. }
        split; [rewrite Hsent, Hs1; simpl; lia|].
        split; [rewrite Hfailed, Hx1; lia|].
        split; [by rewrite Hsockets|].
        split; [|by rewrite Hskipped].
        intros Hl. by rewrite (Hhistory Hl).
    + destruct (requeued_outcome c q message rest e st)
        as (Harrays & Hframes & Hsent & Hfailed & Hsockets & Hskipped).
      cbn [snd]. rewrite Harrays, Hframes, Hsent, Hfailed, Hsockets, Hskipped.
      simpl. rewrite app_nil_r. repeat split; try done; lia.
Qed.

Lemma process_on_open_socket st c queue :
  wsConnection (this st) = Some c ->
  socket_state (world st) c = 1%Z ->
  arrays (world st) !! wsMessageQueue (this st) = Some queue ->
  _processWebSocketQueue st = drain (Some c) (wsMessageQueue (this st)) queue st.
Proof.
  intros Hconn Hstate Hqueue.
  unfold _processWebSocketQueue, bind, get_this, get_world, get_queue,
    connection_open.
  cbn [this world]. rewrite Hconn, Hstate. cbn. by rewrite Hqueue.
Qed.

(** [_processWebSocketQueue] on an open socket sends the queued records
    in queue order up to the first one that the socket does not take, and
    leaves that one and all later ones in the queue in their order: what
    was sent followed by what is left is the queue as it was.  [sent] grows
    by the number of records sent and [failed] by one exactly when a record
    was refused. *)
Theorem drain_is_fifo st c queue :
  wsConnection (this st) = Some c ->
  socket_state (world st) c = 1%Z ->
  arrays (world st) !! wsMessageQueue (this st) = Some queue ->
  let st' := (_processWebSocketQueue st).2 in
  (_processWebSocketQueue st).1 = Normal tt
  /\ (taken c queue ++ left_over c queue)%list = queue
  /\ frames_on c (world st') =
       (frames_on c (world st) ++ (frame <$> taken c queue))%list
  /\ queue_of st' = left_over c queue
  /\ sent (stats (this st')) =
       (sent (stats (this st)) + Z.of_nat (length (taken c queue)))%Z
  /\ failed (stats (this st')) =
       (failed (stats (this st))
        + match left_over c queue with [] => 0 | _ => 1 end)%Z
  /\ (forall message rest,
        left_over c queue = message :: rest -> accepted c message = false).
Proof.
  intros Hconn Hstate Hqueue st'.
  assert (wsMessageQueue (this st) < length (arrays (world st)))%nat as Hq
    by (by eapply lookup_lt_Some).
  assert (_processWebSocketQueue st
          = drain (Some c) (wsMessageQueue (this st)) queue st) as Hrun.
  { by apply process_on_open_socket. }
  destruct (drain_outcome c (wsMessageQueue (this st)) queue st Hq)
    as (Hnil & Harrays & Hframes & Hsent & Hfailed & _ & _ & _).
  destruct (drain_same_timers (Some c) (wsMessageQueue (this st)) queue st)
    as [Hnormal _].
  subst st'. rewrite Hrun.
  split; [done|]. split; [apply taken_left_over|]. split; [done|].
  split.
  { unfold queue_of.
    assert (wsMessageQueue
              (this (drain (Some c) (wsMessageQueue (this st)) queue st).2)
            = wsMessageQueue (this st)) as ->.
    { pose proof (triple_drain (this st) (stats (this st)) False False False
                    (Some c) (wsMessageQueue (this st)) queue st) as Hkeep.
      destruct (drain _ _ queue st) as [[[]|e] st1]; simpl;
        apply Hkeep; (split; [by repeat split|done]). }
    destruct queue as [|m queue'].
    - rewrite (Hnil eq_refl). by rewrite Hqueue.
    - rewrite Harrays by done. by rewrite list_lookup_insert_eq. }
  split; [done|]. split; [done|].
  apply left_over_refused.
Qed.

(** When the socket takes every queued record, one pass empties the queue:
    every record is sent, in order, each counted as sent, and no failure is
    counted or recorded. *)
Theorem drain_empties_queue st c queue :
  wsConnection (this st) = Some c ->
  socket_state (world st) c = 1%Z ->
  arrays (world st) !! wsMessageQueue (this st) = Some queue ->
  Forall (fun message => accepted c message = true) queue ->
  let st' := (_processWebSocketQueue st).2 in
  queue_of st' = []
  /\ frames_on c (world st') = (frames_on c (world st) ++ (frame <$> queue))%list
  /\ stats (this st') =
       with_sent (sent (stats (this st)) + Z.of_nat (length queue))
                 (stats (this st))
  /\ failedMessages (this st') = failedMessages (this st).
Proof.
  intros Hconn Hstate Hqueue Hall st'.
  destruct (all_accepted c queue Hall) as [Htaken Hleft].
  assert (wsMessageQueue (this st) < length (arrays (world st)))%nat as Hq
    by (by eapply lookup_lt_Some).
  assert (_processWebSocketQueue st
          = drain (Some c) (wsMessageQueue (this st)) queue st) as Hrun.
  { by apply process_on_open_socket. }
  destruct (drain_outcome c (wsMessageQueue (this st)) queue st Hq)
    as (Hnil & Harrays & Hframes & Hsent & Hfailed & _ & Hhistory & Hskipped).
  pose proof (triple_drain (this st) (stats (this st)) False False False
                (Some c) (wsMessageQueue (this st)) queue st) as Hkeep.
  subst st'. rewrite Hrun. rewrite Htaken, Hleft in *.
  assert (wsMessageQueue
            (this (drain (Some c) (wsMessageQueue (this st)) queue st).2)
          = wsMessageQueue (this st)) as Hsame.
  { destruct (drain _ _ queue st) as [[[]|e] st1]; simpl;
      apply Hkeep; (split; [by repeat split|done]). }
  split.
  { unfold queue_of. rewrite Hsame.
    destruct queue as [|m queue'].
    - rewrite (Hnil eq_refl). by rewrite Hqueue.
    - rewrite Harrays by done. by rewrite list_lookup_insert_eq. }
  split; [done|]. split; [|by apply Hhistory].
  destruct (stats (this (drain _ _ queue st).2)) as [s f k] eqn:Hstats.
  simpl in *. unfold with_sent. f_equal; lia.
Qed.
End Drain.

Lemma drain_is_fifo_witness :
  wsConnection (this backlog_state) = Some 0%nat /\
  socket_state (world backlog_state) 0 = 1%Z /\
  arrays (world backlog_state) !! wsMessageQueue (this backlog_state)
  = Some backlog /\
  frames_on 0 (world (@_processWebSocketQueue cycle_host backlog_state).2)
  = [sample_json (VObj [("short_message", VStr "one")])] /\
  queue_of (@_processWebSocketQueue cycle_host backlog_state).2
  = [[("short_message", VStr "two"); ("_meta", VNull)];
     [("short_message", VStr "three")]] /\
  failed (stats (this (@_processWebSocketQueue cycle_host backlog_state).2)) = 1%Z.
Proof.
  pose proof (@drain_is_fifo cycle_host backlog_state 0%nat backlog
                eq_refl eq_refl eq_refl)
    as (_ & _ & Hframes & Hqueue & _ & Hfailed & _).
  split; [reflexivity|]. split; [reflexivity|]. split; [reflexivity|].
  split; [rewrite Hframes; reflexivity|].
  split; [rewrite Hqueue; reflexivity|].
  rewrite Hfailed. reflexivity.
Defined.

Lemma drain_empties_queue_witness :
  Forall (fun message => @accepted sample_host 0 message = true) backlog /\
  queue_of (@_processWebSocketQueue sample_host backlog_state).2 = [] /\
  sent (stats (this (@_processWebSocketQueue sample_host backlog_state).2)) = 3%Z.
Proof.
  assert (Forall (fun message => @accepted sample_host 0 message = true) backlog)
    as Hall by (repeat constructor).
  pose proof (@drain_empties_queue sample_host backlog_state 0%nat backlog
                eq_refl eq_refl eq_refl Hall) as (Hqueue & _ & Hstats & _).
  split; [exact Hall|]. split; [exact Hqueue|].
  rewrite Hstats. reflexivity.
Defined.

(* --------------------------------------------------------------------- *)
(** ** Sending on the stream *)

Section StreamSend.
Context `{Host}.
Implicit Types (st : State) (m : object) (c : nat).

Lemma queue_of_insert st items :
  queue_allocated st ->
  default [] (<[wsMessageQueue (this st) := items]> (arrays (world st))
              !! wsMessageQueue (this st)) = items.
Proof.
  intros Hq. by rewrite list_lookup_insert_eq.
Qed.

(** A send while the socket is neither open nor closed only queues. *)
Lemma send_buffers st m c :
  str_truthy (wsEndpoint (this st)) = true ->
  wsConnection (this st) = Some c ->
  socket_state (world st) c <> 1%Z ->
  socket_state (world st) c <> 3%Z ->
  _sendWebSocket m st = (Normal tt, enqueued m st).
Proof.
  intros Hep Hc H1 H3.
  unfold enqueued, _sendWebSocket, bind, get_this, get_queue, set_queue, update_world,
    get_world, connection_open, queue_of.
  simpl. rewrite Hep, Hc. simpl.
  change (socket_state (with_arrays ?a ?w) c) with (socket_state w c).
  rewrite (proj2 (Z.eqb_neq _ _) H1), (proj2 (Z.eqb_neq _ _) H3).
  reflexivity.
Qed.

Lemma sends_cons m messages st :
  sends (m :: messages) st = sends messages (_sendWebSocket m st).2.
Proof. reflexivity. Qed.

Lemma sends_buffer messages st c :
  str_truthy (wsEndpoint (this st)) = true ->
  wsConnection (this st) = Some c ->
  socket_state (world st) c <> 1%Z ->
  socket_state (world st) c <> 3%Z ->
  queue_allocated st ->
  sends messages st =
  {| this := this st;
     world := with_arrays (<[wsMessageQueue (this st) := (queue_of st ++ messages)%list]>
                             (arrays (world st))) (world st) |}.
Proof.
  revert st. induction messages as [|m messages IH]; intros st Hep Hc H1 H3 Hq.
  - simpl. rewrite app_nil_r. unfold queue_of, queue_allocated in *.
    apply lookup_lt_is_Some_2 in Hq as [items Hitems]. rewrite Hitems. simpl.
    rewrite list_insert_id by done. by destruct st as [l []].
  - rewrite sends_cons, (send_buffers st m c Hep Hc H1 H3).
    unfold enqueued. simpl.
    rewrite IH; simpl; try done.
    + unfold queue_of at 1. simpl. rewrite queue_of_insert by done.
      rewrite list_insert_insert_eq, <- app_assoc. reflexivity.
    + unfold queue_allocated in *. simpl. by rewrite length_insert.
Qed.

Lemma lookup_snoc {A} (xs : list A) x : (xs ++ [x])%list !! length xs = Some x.
Proof. induction xs; simpl; auto. Qed.

Lemma insert_snoc {A} (xs : list A) x y :
  <[length xs := y]> (xs ++ [x])%list = (xs ++ [y])%list.
Proof. induction xs; simpl; [done|]. by f_equal. Qed.

(** A connection attempt that the platform accepts. *)
Lemma connect_run st :
  wsConnecting (this st) = false ->
  WebSocket_new (wsEndpoint (this st)) = None ->
  _connectWebSocket st =
  (Normal tt,
   {| this := with_wsConnection (Some (length (sockets (world st))))
                (with_wsConnecting true (this st));
      world := with_sockets (sockets (world st) ++ [wired_socket])
                 (with_trace (trace (world st) ++
                              [EWebSocket (length (sockets (world st)))
                                          (wsEndpoint (this st))])
                             (world st)) |}).
Proof.
  intros Hconnecting Hnew.
  unfold _connectWebSocket, bind at 1, get_this at 1. rewrite Hconnecting.
  unfold try_catch, bind, update, new_WebSocket. simpl. rewrite Hnew.
  unfold bind, get_world, update_world, emit, update_socket, update_world, ret.
  simpl.
  repeat (rewrite ?lookup_snoc, ?insert_snoc; simpl).
  by destruct st as [l []].
Qed.

(** A connection attempt that the platform refuses. *)
Lemma connect_refused st e :
  wsConnecting (this st) = false ->
  WebSocket_new (wsEndpoint (this st)) = Some e ->
  _connectWebSocket st =
  (Normal tt,
   console_line "error" "GELFLogger: WebSocket connection failed:"
     {| this := with_wsConnecting false (with_wsConnecting true (this st));
        world := world st |}).
Proof.
  intros Hconnecting Hnew.
  unfold _connectWebSocket, bind at 1, get_this at 1. rewrite Hconnecting.
  unfold try_catch, bind, update, new_WebSocket. simpl. rewrite Hnew.
  unfold throw. by rewrite console_if_verbose_run.
Qed.

(** A send on a logger without an open or connecting socket queues the
    record and connects. *)
Lemma send_connects st m :
  str_truthy (wsEndpoint (this st)) = true ->
  disconnected st ->
  _sendWebSocket m st = _connectWebSocket (enqueued m st).
Proof.
  intros Hep Hd.
  unfold enqueued, _sendWebSocket, bind, get_this, get_queue, set_queue,
    update_world, get_world, connection_open, queue_of.
  simpl. rewrite Hep. simpl. unfold disconnected in Hd.
  destruct (wsConnection (this st)) as [c|]; [|done].
  change (socket_state (with_arrays ?a ?w) c) with (socket_state w c).
  by rewrite Hd.
Qed.

(** A burst of sends on a logger that is not connected opens one socket:
    the first send queues its record and connects, the others only queue.
    The records wait in the order of the calls, nothing is sent, counted
    or recorded as failed, and no timer is started. *)
Theorem burst_opens_one_socket st m messages :
  str_truthy (wsEndpoint (this st)) = true ->
  disconnected st ->
  wsConnecting (this st) = false ->
  WebSocket_new (wsEndpoint (this st)) = None ->
  queue_allocated st ->
  let st' := sends (m :: messages) st in
  let c := length (sockets (world st)) in
  sockets (world st') = (sockets (world st) ++ [wired_socket])%list
  /\ trace (world st') =
     (trace (world st) ++ [EWebSocket c (wsEndpoint (this st))])%list
  /\ wsConnection (this st') = Some c
  /\ queue_of st' = (queue_of st ++ m :: messages)%list
  /\ stats (this st') = stats (this st)
  /\ failedMessages (this st') = failedMessages (this st)
  /\ wsReconnectAttempts (this st') = wsReconnectAttempts (this st).
Proof.
  intros Hep Hd Hconnecting Hnew Hq st' c. subst st' c.
  rewrite sends_cons, (send_connects st m Hep Hd).
  rewrite connect_run by done. simpl.
  erewrite sends_buffer; simpl; try done.
  - unfold queue_of. simpl. rewrite !queue_of_insert by done.
    rewrite list_insert_insert_eq, <- app_assoc.
    rewrite list_lookup_insert_eq by done. done.
  - unfold socket_state. simpl. by rewrite lookup_snoc.
  - unfold socket_state. simpl. by rewrite lookup_snoc.
  - unfold queue_allocated in *. simpl. by rewrite length_insert.
Qed.

(** When [new WebSocket] raises, the send still completes normally: the
    record stays queued, and it is neither counted nor recorded as a
    failure; the logger is ready for another attempt. *)
Theorem failed_connect_keeps_record st m e :
  str_truthy (wsEndpoint (this st)) = true ->
  disconnected st ->
  wsConnecting (this st) = false ->
  WebSocket_new (wsEndpoint (this st)) = Some e ->
  queue_allocated st ->
  let st' := (_sendWebSocket m st).2 in
  (_sendWebSocket m st).1 = Normal tt
  /\ queue_of st' = (queue_of st ++ [m])%list
  /\ stats (this st') = stats (this st)
  /\ failedMessages (this st') = failedMessages (this st)
  /\ sockets (world st') = sockets (world st)
  /\ wsConnection (this st') = wsConnection (this st)
  /\ wsConnecting (this st') = false.
Proof.
  intros Hep Hd Hconnecting Hnew Hq st'. subst st'.
  rewrite (send_connects st m Hep Hd), (connect_refused _ e) by done.
  unfold console_line, queue_of. simpl.
  destruct (verbose _); simpl; rewrite queue_of_insert by done;
    repeat split; done.
Qed.

End StreamSend.

Lemma burst_opens_one_socket_witness :
  wsReconnectAttempts (this exhausted_state)
  = wsMaxReconnectAttempts (this exhausted_state) /\
  let st' := @sends sample_host
               [[("short_message", VStr "a")]; [("short_message", VStr "b")];
                [("short_message", VStr "c")]] exhausted_state in
  length (sockets (world st')) = 2%nat /\
  trace (world st') = [EWebSocket 1 (Some "wss://logs.example/ws")] /\
  wsConnection (this st') = Some 1%nat /\
  queue_of st' = [[("short_message", VStr "a")]; [("short_message", VStr "b")];
                  [("short_message", VStr "c")]].
Proof.
  split; [reflexivity|].
  pose proof (@burst_opens_one_socket sample_host exhausted_state
                [("short_message", VStr "a")]
                [[("short_message", VStr "b")]; [("short_message", VStr "c")]]
                eq_refl eq_refl eq_refl eq_refl (le_n 1))
    as (Hsockets & Htrace & Hc & Hqueue & _).
  cbv zeta. split; [by rewrite Hsockets|]. split; [by rewrite Htrace|].
  split; [by rewrite Hc|]. by rewrite Hqueue.
Defined.

Lemma failed_connect_keeps_record_witness :
  let st' := (@_sendWebSocket offline_host [("short_message", VStr "a")]
                exhausted_state).2 in
  queue_of st' = [[("short_message", VStr "a")]] /\
  getStats (this st') =
  {| v_sent := 0; v_failed := 0; v_skipped := 0; failedMessagesCount := 0 |}.
Proof.
  pose proof (@failed_connect_keeps_record offline_host exhausted_state
                [("short_message", VStr "a")]
                {| err_name := "SyntaxError"; err_message := "invalid URL" |}
                eq_refl eq_refl eq_refl eq_refl (le_n 1))
    as (_ & Hqueue & Hstats & Hfailed & _).
  cbv zeta. split; [by rewrite Hqueue|].
  unfold getStats. by rewrite Hstats, Hfailed.
Defined.

(* --------------------------------------------------------------------- *)
(** ** What a transport never does *)

Section Strides.
Context `{Host}.
Implicit Types (P Q E : State -> Prop) (pl : Logger -> Prop)
  (pw : World -> Prop).

Lemma holds_update pl pw E (f : Logger -> Logger) :
  (forall l, pl l -> pl (f l)) ->
  triple (holds pl pw) (update f) (holds pl pw) E.
Proof. intros Hf st [Hl Hw]. split; [by apply Hf|done]. Qed.

Lemma holds_update_world pl pw E (f : World -> World) :
  (forall w, pw w -> pw (f w)) ->
  triple (holds pl pw) (update_world f) (holds pl pw) E.
Proof. intros Hf st [Hl Hw]. split; [done|by apply Hf]. Qed.

Lemma holds_update_to pl pl' pw E (f : Logger -> Logger) :
  (forall l, pl l -> pl' (f l)) ->
  triple (holds pl pw) (update f) (holds pl' pw) E.
Proof. intros Hf st [Hl Hw]. split; [by apply Hf|done]. Qed.

(** A statement that leaves the state as it is. *)
Lemma triple_skip {A} P (c : M A) :
  (forall st, (c st).2 = st) -> triple P c P P.
Proof.
  intros Hc st HP. specialize (Hc st).
  destruct (c st) as [[a|e] st']; simpl in Hc; by subst.
Qed.

(** [get_this] yields the instance of the state it runs in. *)
Lemma triple_bind_this {A} P Q E (k : Logger -> M A) :
  (forall l, triple (fun st => P st /\ this st = l) (k l) Q E) ->
  triple P (bind get_this k) Q E.
Proof. intros Hk st HP. by apply (Hk (this st) st). Qed.

Lemma triple_absurd {A} P Q E (c : M A) :
  (forall st, P st -> False) -> triple P c Q E.
Proof. intros HP st Hst. destruct (HP st Hst). Qed.

Lemma triple_strengthen {A} P P' Q E (c : M A) :
  (forall st, P' st -> P st) -> triple P c Q E -> triple P' c Q E.
Proof. intros HP Hc. by apply (triple_weaken P P' Q Q E E). Qed.

Lemma filter_snoc_out (keep : effect -> bool) t e :
  keep e = false ->
  filter (fun e => keep e = true) (t ++ [e])%list
  = filter (fun e => keep e = true) t.
Proof.
  intros He. rewrite filter_app, filter_cons, decide_False, filter_nil
    by (by rewrite He). apply app_nil_r.
Qed.

Lemma reconnect_delays_snoc_out w e :
  is_reconnect e = false ->
  reconnect_delays (with_trace (trace w ++ [e]) w) = reconnect_delays w.
Proof.
  intros He. unfold reconnect_delays. simpl. rewrite omap_app. simpl.
  destruct e as [id [] delay| | | | | |]; try discriminate He; apply app_nil_r.
Qed.
End Strides.

(** Walks through a statement, keeping an assertion [holds pl pw]; [side]
    settles what an update has to keep. *)
Ltac stride side :=
  cbv beta zeta;
  first
    [ solve [eauto]
    | lazymatch goal with
      | |- triple _ (bind _ _) _ _ =>
          eapply triple_bind; [stride side | intros ?; stride side]
      | |- triple _ (try_catch _ _) _ _ =>
          eapply triple_try_catch; [stride side | intros ?; stride side]
      | |- triple _ (if ?b then _ else _) _ _ => destruct b eqn:?; stride side
      | |- triple _ (match ?x with _ => _ end) _ _ =>
          destruct x eqn:?; stride side
      | |- triple _ (update _) _ _ => apply holds_update; side
      | |- triple _ (update_world _) _ _ => apply holds_update_world; side
      | |- triple _ (ret _) _ _ => by apply triple_skip
      | |- triple _ (throw _) _ _ => by apply triple_skip
      | |- triple _ (lift _) _ _ => by apply triple_skip
      | |- triple _ get_this _ _ => by apply triple_skip
      | |- triple _ get_world _ _ => by apply triple_skip
      | |- triple _ Date_now _ _ => by apply triple_skip
      | |- triple _ (get_queue _) _ _ => by apply triple_skip
      | |- _ =>
          progress unfold when, emit, set_queue, update_socket, clearTimeout,
            setTimeout, console_if_verbose, console_mirror, incr_sent,
            incr_failed, incr_skipped, _logFailure, _cleanupPromises,
            socket_send, new_WebSocket, lookup_identifier;
          stride side
      end ].

(** What an update has to keep, for an assertion on a kind of effects. *)
Ltac side :=
  let x := fresh in
  let Hx := fresh in
  intros x Hx; destruct_and?;
  unfold one_shot_effects, stream_effects in *;
  repeat case_match; simpl in *; repeat split;
  first [ done
        | by rewrite filter_snoc_out
        | by rewrite filter_all_kept
        | by apply prefix_app_r
        | by rewrite reconnect_delays_snoc_out ].

(** The procedures of the stream transport keep [I]. *)
Ltac stream_procedures I :=
  assert (forall c q queue, triple I (drain c q queue) I I)
    by (intros ? ? queue; induction queue; cbn [drain]; stride side);
  assert (triple I _processWebSocketQueue I I)
    by (unfold _processWebSocketQueue; stride side);
  assert (triple I _connectWebSocket I I)
    by (unfold _connectWebSocket; stride side);
  assert (forall m, triple I (_sendWebSocket m) I I)
    by (intros ?; unfold _sendWebSocket; stride side);
  assert (triple I onopen_handler I I)
    by (unfold onopen_handler; stride side);
  assert (triple I onclose_handler I I)
    by (unfold onclose_handler; stride side);
  assert (triple I onerror_handler I I)
    by (unfold onerror_handler; stride side);
  assert (triple I auth_timer_fired I I)
    by (unfold auth_timer_fired; stride side).

(** With [_send] keeping [I], so do the calls of a user and the callbacks
    of a request. *)
Ltac call_procedures I :=
  assert (forall level sm fm cf, triple I (_log level sm fm cf) I I)
    by (intros; unfold _log, _log_try, _log_catch; stride side);
  assert (forall error cf, triple I (exception error cf) I I)
    by (intros; unfold exception; stride side);
  assert (forall m t resp, triple I (send_then m t resp) I I)
    by (intros; unfold send_then; stride side);
  assert (forall m t error, triple I (send_catch m t error) I I)
    by (intros; unfold send_catch; stride side);
  assert (triple I clearFailedMessages I I)
    by (unfold clearFailedMessages; stride side);
  assert (triple I resetStats I I)
    by (unfold resetStats; stride side).

Section Exclusive.
Context `{Host}.
Implicit Types (st : State) (ops : list operation).

Lemma triple_run {A} P (c : M A) st : triple P c P P -> P st -> P (c st).2.
Proof.
  intros Hc HP. specialize (Hc st HP). by destruct (c st) as [[a|e] st'].
Qed.

Lemma stream_perform t0 op :
  let I := holds (fun l => useWebSocket l = true)
                 (fun w => one_shot_effects w = t0) in
  triple I (perform op) I I.
Proof.
  intros I. subst I.
  match goal with |- triple ?I _ _ _ => stream_procedures I end.
  match goal with |- triple ?I _ _ _ =>
    assert (forall m, triple I (_send m) I I) end.
  { intros m. unfold _send. apply triple_bind_this. intros l.
    destruct (useWebSocket l) eqn:Hmode.
    - eapply triple_strengthen; [|by eauto]. by intros st [? _].
    - apply triple_absurd. intros st [[Hl _] <-]. congruence. }
  match goal with |- triple ?I _ _ _ => call_procedures I end.
  destruct op; simpl; eauto.
Qed.

Lemma one_shot_perform s0 a0 t0 op :
  one_shot_operation op = true ->
  let I := holds (fun l => useWebSocket l = false)
                 (fun w => sockets w = s0 /\ arrays w = a0 /\
                           stream_effects w = t0) in
  triple I (perform op) I I.
Proof.
  intros Hop I. subst I.
  match goal with |- triple ?I _ _ _ =>
    assert (forall m, triple I (_send m) I I) end.
  { intros m. unfold _send. apply triple_bind_this. intros l.
    destruct (useWebSocket l) eqn:Hmode.
    - apply triple_absurd. intros st [[Hl _] <-]. congruence.
    - eapply triple_strengthen; [by intros st [? _]|]. stride side. }
  match goal with |- triple ?I _ _ _ => call_procedures I end.
  destruct op; simpl; try discriminate Hop; eauto.
Qed.


(** A stream logger never uses the one-shot transport: whatever is logged
    and whatever its socket reports, it issues no request and starts no
    cancellation timer, also when an endpoint for requests is configured
    and the stream endpoint is missing or unreachable. *)
Theorem stream_logger_never_fetches ops st :
  useWebSocket (this st) = true ->
  one_shot_effects (world (after ops st)) = one_shot_effects (world st).
Proof.
  intros Hmode.
  enough (holds (fun l => useWebSocket l = true)
                (fun w => one_shot_effects w = one_shot_effects (world st))
                (after ops st)) as [_ Hw] by done.
  assert (holds (fun l => useWebSocket l = true)
                (fun w => one_shot_effects w = one_shot_effects (world st)) st)
    as Hst by done.
  revert Hst. generalize (one_shot_effects (world st)) as t0. intros t0.
  clear Hmode. revert st. induction ops as [|op ops IH]; intros st Hst; [done|].
  rewrite after_cons. apply IH.
  by apply (triple_run _ _ _ (stream_perform t0 op)).
Qed.

(** A one-shot logger never touches the stream transport: log calls and
    the outcomes of its requests open no socket, send no frame, start no
    authentication or reconnect timer and leave every queue as it is, also
    when a stream endpoint is configured. *)
Theorem one_shot_logger_never_streams ops st :
  useWebSocket (this st) = false ->
  Forall (fun op => one_shot_operation op = true) ops ->
  sockets (world (after ops st)) = sockets (world st)
  /\ arrays (world (after ops st)) = arrays (world st)
  /\ stream_effects (world (after ops st)) = stream_effects (world st).
Proof.
  intros Hmode Hops.
  enough (holds (fun l => useWebSocket l = false)
                (fun w => sockets w = sockets (world st) /\
                          arrays w = arrays (world st) /\
                          stream_effects w = stream_effects (world st))
                (after ops st)) as [_ Hw] by done.
  assert (holds (fun l => useWebSocket l = false)
                (fun w => sockets w = sockets (world st) /\
                          arrays w = arrays (world st) /\
                          stream_effects w = stream_effects (world st)) st)
    as Hst by done.
  revert Hst.
  generalize (sockets (world st)) as s0, (arrays (world st)) as a0,
    (stream_effects (world st)) as t0.
  intros s0 a0 t0. clear Hmode. revert st.
  induction Hops as [|op ops Hop Hops IH]; intros st Hst; [done|].
  rewrite after_cons. apply IH.
  by apply (triple_run _ _ _ (one_shot_perform s0 a0 t0 op Hop)).
Qed.

End Exclusive.

Lemma stream_logger_never_fetches_witness :
  useWebSocket (this ws_state) = true /\
  one_shot_effects (world (@after sample_host stream_ops ws_state)) = [].
Proof.
  split; [reflexivity|].
  by rewrite (@stream_logger_never_fetches sample_host stream_ops ws_state
                eq_refl).
Defined.

Lemma one_shot_logger_never_streams_witness :
  useWebSocket (this http_state) = false /\
  Forall (fun op => one_shot_operation op = true) sample_ops /\
  sockets (world (@after sample_host sample_ops http_state)) = [] /\
  arrays (world (@after sample_host sample_ops http_state)) = [[]] /\
  stream_effects (world (@after sample_host sample_ops http_state)) = [].
Proof.
  assert (Forall (fun op => one_shot_operation op = true) sample_ops) as Hops
    by (repeat constructor).
  pose proof (@one_shot_logger_never_streams sample_host sample_ops http_state
                eq_refl Hops) as (Hsockets & Harrays & Heffects).
  split; [reflexivity|]. split; [exact Hops|].
  split; [by rewrite Hsockets|]. split; [by rewrite Harrays|].
  by rewrite Heffects.
Defined.

Example stream_ops_outcome :
  let st' := @after sample_host stream_ops ws_state in
  length (sockets (world st')) = 2%nat /\
  reconnect_delays (world st') = [VNum 2000] /\
  getStats (this st') =
  {| v_sent := 2; v_failed := 0; v_skipped := 0; failedMessagesCount := 0 |}.
Proof. by vm_compute. Qed.

(* --------------------------------------------------------------------- *)
(** ** Reconnecting *)

Section Reconnect.
Context `{Host}.
Implicit Types (st : State) (n : nat).

Lemma reconnect_delays_console method text st :
  reconnect_delays (world (console_line method text st))
  = reconnect_delays (world st).
Proof.
  unfold console_line, reconnect_delays. simpl.
  destruct (verbose (this st)); [|done]. simpl.
  rewrite omap_app. simpl. apply app_nil_r.
Qed.

(** A close event within the budget, and one past it. *)
Lemma onclose_within st :
  (wsReconnectAttempts (this st) < wsMaxReconnectAttempts (this st))%Z ->
  exists st',
    onclose_handler st = (Normal tt, st') /\
    wsReconnectAttempts (this st') = (wsReconnectAttempts (this st) + 1)%Z /\
    wsMaxReconnectAttempts (this st') = wsMaxReconnectAttempts (this st) /\
    wsConnecting (this st') = false /\
    reconnect_delays (world st') =
      (reconnect_delays (world st)
       ++ [VNum (backoff (wsReconnectAttempts (this st) + 1))])%list.
Proof.
  intros Hlt. unfold onclose_handler.
  unfold bind at 1. unfold update at 1.
  unfold bind at 1. rewrite console_if_verbose_run.
  remember (console_line "log" "GELFLogger: WebSocket closed"
              {| this := with_wsConnecting false (this st); world := world st |})
    as st1 eqn:Hst1.
  assert (this st1 = with_wsConnecting false (this st)) as Hthis
    by (by subst st1).
  assert (reconnect_delays (world st1) = reconnect_delays (world st)) as Hdelays
    by (subst st1; by rewrite reconnect_delays_console).
  clear Hst1.
  unfold bind at 1, get_this at 1. rewrite Hthis.
  change (wsReconnectAttempts (with_wsConnecting false (this st)))
    with (wsReconnectAttempts (this st)).
  change (wsMaxReconnectAttempts (with_wsConnecting false (this st)))
    with (wsMaxReconnectAttempts (this st)).
  rewrite (proj2 (Z.ltb_lt _ _) Hlt).
  unfold setTimeout, bind, update, get_this, get_world, update_world, emit, ret.
  simpl. eexists. split; [reflexivity|]. simpl. rewrite Hthis. simpl.
  repeat split; try done.
  unfold reconnect_delays in *. simpl. rewrite omap_app, Hdelays. done.
Qed.

Lemma onclose_spent st :
  (wsMaxReconnectAttempts (this st) <= wsReconnectAttempts (this st))%Z ->
  exists st',
    onclose_handler st = (Normal tt, st') /\
    wsReconnectAttempts (this st') = wsReconnectAttempts (this st) /\
    wsMaxReconnectAttempts (this st') = wsMaxReconnectAttempts (this st) /\
    wsConnecting (this st') = false /\
    reconnect_delays (world st') = reconnect_delays (world st).
Proof.
  intros Hge. unfold onclose_handler.
  unfold bind at 1. unfold update at 1.
  unfold bind at 1. rewrite console_if_verbose_run.
  remember (console_line "log" "GELFLogger: WebSocket closed"
              {| this := with_wsConnecting false (this st); world := world st |})
    as st1 eqn:Hst1.
  assert (this st1 = with_wsConnecting false (this st)) as Hthis
    by (by subst st1).
  assert (reconnect_delays (world st1) = reconnect_delays (world st)) as Hdelays
    by (subst st1; by rewrite reconnect_delays_console).
  clear Hst1.
  unfold bind at 1, get_this at 1. rewrite Hthis.
  change (wsReconnectAttempts (with_wsConnecting false (this st)))
    with (wsReconnectAttempts (this st)).
  change (wsMaxReconnectAttempts (with_wsConnecting false (this st)))
    with (wsMaxReconnectAttempts (this st)).
  rewrite (proj2 (Z.ltb_ge _ _) Hge).
  eexists. split; [reflexivity|]. rewrite Hthis. by repeat split.
Qed.

Lemma backoff_bounds a :
  (1 <= a)%Z -> (2000 <= backoff a <= 30000)%Z /\ (backoff a <= backoff (a + 1))%Z.
Proof.
  intros Ha. unfold backoff.
  assert (2 ^ 1 <= 2 ^ a)%Z by (apply Z.pow_le_mono_r; lia).
  assert (2 ^ a <= 2 ^ (a + 1))%Z by (apply Z.pow_le_mono_r; lia).
  change (2 ^ 1)%Z with 2%Z in *. lia.
Qed.

Lemma closes_run n st :
  let a := wsReconnectAttempts (this st) in
  let k := Nat.min n (Z.to_nat (wsMaxReconnectAttempts (this st) - a)) in
  wsReconnectAttempts (this (closes n st)) = (a + Z.of_nat k)%Z
  /\ wsMaxReconnectAttempts (this (closes n st))
     = wsMaxReconnectAttempts (this st)
  /\ reconnect_delays (world (closes n st)) =
     (reconnect_delays (world st)
      ++ ((fun i => VNum (backoff (a + 1 + Z.of_nat i))) <$> seq 0 k))%list.
Proof.
  revert st. induction n as [|n IH]; intros st; cbv zeta.
  - simpl. rewrite app_nil_r. repeat split. lia.
  - cbn [closes].
    destruct (Z.lt_ge_cases (wsReconnectAttempts (this st))
                (wsMaxReconnectAttempts (this st))) as [Hlt|Hge].
    + destruct (onclose_within st Hlt)
        as (st' & -> & Ha & Hmax & _ & Hdelays).
      cbn [snd]. destruct (IH st') as (IHa & IHmax & IHdelays).
      rewrite IHa, IHmax, IHdelays, Ha, Hmax, Hdelays.
      replace (Nat.min (S n)
                 (Z.to_nat (wsMaxReconnectAttempts (this st)
                            - wsReconnectAttempts (this st))))
        with (S (Nat.min n
                   (Z.to_nat (wsMaxReconnectAttempts (this st)
                              - (wsReconnectAttempts (this st) + 1))))) by lia.
      split; [lia|]. split; [done|].
      rewrite <- app_assoc. f_equal. cbn [seq fmap list_fmap app].
      f_equal; [do 2 f_equal; lia|].
      rewrite <- fmap_S_seq, <- list_fmap_compose.
      apply list_fmap_ext. intros i ? _. simpl. do 2 f_equal. lia.
    + destruct (onclose_spent st Hge) as (st' & -> & Ha & Hmax & _ & Hdelays).
      cbn [snd]. destruct (IH st') as (IHa & IHmax & IHdelays).
      rewrite IHa, IHmax, IHdelays, Ha, Hmax, Hdelays.
      replace (Z.to_nat (wsMaxReconnectAttempts (this st)
                         - wsReconnectAttempts (this st))) with 0%nat by lia.
      rewrite !Nat.min_0_r. by repeat split.
Qed.

(** Reconnecting backs off and gives up.  Of [n] close events in a row,
    the first [wsMaxReconnectAttempts - wsReconnectAttempts] each count an
    attempt and start one reconnect timer, and the others start none.  The
    delay of the timer for attempt [i] is [min(1000 * 2^i, 30000)] ms: no
    attempt waits less than 2000 ms or less than the one before, and none
    waits more than 30000 ms. *)
Theorem reconnects_back_off n st :
  (0 <= wsReconnectAttempts (this st))%Z ->
  let a := wsReconnectAttempts (this st) in
  let k := Nat.min n (Z.to_nat (wsMaxReconnectAttempts (this st) - a)) in
  wsReconnectAttempts (this (closes n st)) = (a + Z.of_nat k)%Z
  /\ reconnect_delays (world (closes n st)) =
     (reconnect_delays (world st)
      ++ ((fun i => VNum (backoff (a + 1 + Z.of_nat i))) <$> seq 0 k))%list
  /\ (forall i : nat,
        (2000 <= backoff (a + 1 + Z.of_nat i) <= 30000)%Z /\
        (backoff (a + 1 + Z.of_nat i) <= backoff (a + 1 + Z.of_nat (S i)))%Z).
Proof.
  intros Ha a k. destruct (closes_run n st) as (Hattempts & _ & Hdelays).
  split; [exact Hattempts|]. split; [exact Hdelays|].
  intros i. destruct (backoff_bounds (a + 1 + Z.of_nat i)) as [Hb Hmono];
    [lia|].
  split; [exact Hb|].
  by replace (a + 1 + Z.of_nat (S i))%Z with (a + 1 + Z.of_nat i + 1)%Z by lia.
Qed.

End Reconnect.

Section Reopen.
Context `{Host}.
Implicit Types (st : State) (n : nat).

(** The open handler resets the attempts and starts no reconnect
    timer. *)
Lemma onopen_resets M d0 :
  triple (holds (fun l => wsMaxReconnectAttempts l = M)
                (fun w => reconnect_delays w = d0))
         onopen_handler
         (holds (fun l => wsReconnectAttempts l = 0%Z /\
                          wsMaxReconnectAttempts l = M)
                (fun w => reconnect_delays w = d0))
         (holds (fun l => wsReconnectAttempts l = 0%Z /\
                          wsMaxReconnectAttempts l = M)
                (fun w => reconnect_delays w = d0)).
Proof.
  match goal with |- triple _ _ ?I _ =>
    assert (forall c q queue, triple I (drain c q queue) I I)
      by (intros ? ? queue; induction queue; cbn [drain]; stride side);
    assert (triple I _processWebSocketQueue I I)
      by (unfold _processWebSocketQueue; stride side)
  end.
  unfold onopen_handler.
  eapply triple_bind; [apply holds_update; by intros l Hl|]. intros _.
  eapply triple_bind;
    [apply (holds_update_to _
              (fun l => wsReconnectAttempts l = 0%Z /\
                        wsMaxReconnectAttempts l = M)); by intros l Hl|].
  intros _.
  stride side.
Qed.

(** A socket that opens restores the reconnect budget.  The open handler
    sets the count of attempts back to zero, whatever it was and whatever
    the drain of the queue does; the close events that follow start their
    reconnect timers from the first delay again, up to
    [wsMaxReconnectAttempts] of them. *)
Theorem open_restores_reconnect_budget n st :
  let opened := (onopen_handler st).2 in
  let k := Nat.min n (Z.to_nat (wsMaxReconnectAttempts (this st))) in
  wsReconnectAttempts (this opened) = 0%Z
  /\ wsReconnectAttempts (this (closes n opened)) = Z.of_nat k
  /\ reconnect_delays (world (closes n opened)) =
     (reconnect_delays (world st)
      ++ ((fun i => VNum (backoff (1 + Z.of_nat i))) <$> seq 0 k))%list.
Proof.
  intros opened k.
  pose proof (onopen_resets (wsMaxReconnectAttempts (this st))
                (reconnect_delays (world st)) st) as Hopen.
  assert (wsReconnectAttempts (this opened) = 0%Z /\
          wsMaxReconnectAttempts (this opened)
          = wsMaxReconnectAttempts (this st) /\
          reconnect_delays (world opened) = reconnect_delays (world st))
    as (Hattempts & Hmax & Hdelays).
  { subst opened. destruct (onopen_handler st) as [[[]|e] st'];
      destruct Hopen as [[? ?] ?]; done. }
  destruct (closes_run n opened) as (Hclosed & _ & Htimers).
  cbv zeta in Hclosed, Htimers.
  rewrite Hattempts, Hmax, Z.sub_0_r in Hclosed, Htimers.
  rewrite Hdelays in Htimers. fold k in Hclosed, Htimers.
  split; [exact Hattempts|]. split; [by rewrite Hclosed, Z.add_0_l|].
  rewrite Htimers. f_equal.
Qed.

End Reopen.

Example open_restores_reconnect_budget_example :
  reconnect_delays
    (world (closes 2 (@onopen_handler sample_host
                        {| this := this exhausted_state;
                           world := world (closes 8 ws_state) |}).2))
  = [VNum 2000; VNum 4000; VNum 8000; VNum 16000; VNum 30000;
     VNum 2000; VNum 4000].
Proof. by vm_compute. Qed.

Lemma reconnects_back_off_witness :
  (0 <= wsReconnectAttempts (this ws_state))%Z /\
  wsReconnectAttempts (this (closes 8 ws_state)) = 5%Z /\
  reconnect_delays (world (closes 8 ws_state))
  = [VNum 2000; VNum 4000; VNum 8000; VNum 16000; VNum 30000].
Proof.
  assert (0 <= wsReconnectAttempts (this ws_state))%Z as Ha by (simpl; lia).
  pose proof (reconnects_back_off 8 ws_state Ha)
    as (Hattempts & Hdelays & _).
  split; [exact Ha|]. split; [by rewrite Hattempts|]. by rewrite Hdelays.
Defined.

(* --------------------------------------------------------------------- *)
(** ** A record that the socket refuses *)

Section Blocked.
Context `{Host}.
Implicit Types (st : State) (m : object) (c : nat).

(** A send on an open socket queues the record and drains the queue. *)
Lemma send_processes st m c :
  str_truthy (wsEndpoint (this st)) = true ->
  wsConnection (this st) = Some c ->
  socket_state (world st) c = 1%Z ->
  _sendWebSocket m st = _processWebSocketQueue (enqueued m st).
Proof.
  intros Hep Hc Hopen.
  unfold enqueued, _sendWebSocket, bind, get_this, get_queue, set_queue,
    update_world, get_world, connection_open, queue_of.
  simpl. rewrite Hep, Hc. simpl.
  change (socket_state (with_arrays ?a ?w) c) with (socket_state w c).
  by rewrite Hopen.
Qed.

Lemma drain_blocked c q blocked rest st :
  accepted c blocked = false ->
  exists e,
    drain (Some c) q (blocked :: rest) st =
    (Normal tt, requeued q blocked rest e (shifted q rest st)).
Proof.
  intros Hblocked. rewrite drain_cons. unfold accepted in Hblocked.
  destruct (JSON_stringify (VObj blocked)) as [text|e]; [|by eexists].
  destruct (WebSocket_send c text) as [e|]; [by eexists|done].
Qed.

(** A record that the socket does not take blocks the stream.  It stays at
    the head of the queue, and every later send retries it first and stops
    there: the new record is queued behind it, no frame is sent, and the
    send counts one failure, for the record at the head and not for its
    own. *)
Theorem refused_record_blocks_queue messages st c blocked rest :
  str_truthy (wsEndpoint (this st)) = true ->
  wsConnection (this st) = Some c ->
  socket_state (world st) c = 1%Z ->
  arrays (world st) !! wsMessageQueue (this st) = Some (blocked :: rest) ->
  accepted c blocked = false ->
  let st' := sends messages st in
  queue_of st' = (blocked :: rest ++ messages)%list
  /\ frames_on c (world st') = frames_on c (world st)
  /\ sent (stats (this st')) = sent (stats (this st))
  /\ failed (stats (this st'))
     = (failed (stats (this st)) + Z.of_nat (length messages))%Z.
Proof.
  revert st rest.
  induction messages as [|m messages IH];
    intros st rest Hep Hc Hopen Hqueue Hblocked st'; subst st'.
  - unfold sends, queue_of. simpl. rewrite Hqueue, app_nil_r. simpl.
    repeat split. lia.
  - rewrite sends_cons, (send_processes st m c Hep Hc Hopen).
    assert (wsMessageQueue (this st) < length (arrays (world st)))%nat as Hq
      by (by eapply lookup_lt_Some).
    assert (arrays (world (enqueued m st)) !! wsMessageQueue (this st)
            = Some (blocked :: rest ++ [m])%list) as Hqueue1.
    { unfold enqueued, queue_of. simpl. rewrite Hqueue. simpl.
      by rewrite list_lookup_insert_eq. }
    rewrite (process_on_open_socket (enqueued m st) c _ Hc Hopen Hqueue1).
    change (wsMessageQueue (this (enqueued m st)))
      with (wsMessageQueue (this st)).
    destruct (drain_blocked c (wsMessageQueue (this st)) blocked (rest ++ [m])
                (enqueued m st) Hblocked) as [e ->].
    cbn [snd].
    destruct (requeued_outcome c (wsMessageQueue (this st)) blocked
                (rest ++ [m]) e (enqueued m st))
      as (Harrays & Hframes & Hsent & Hfailed & Hsockets & _).
    cbv zeta in Harrays, Hframes, Hsent, Hfailed, Hsockets.
    set (st2 := requeued _ _ _ _ _) in *.
    assert (this (enqueued m st) = this st) as Hthis by done.
    assert (same_link : wsEndpoint (this st2) = wsEndpoint (this st) /\
                        wsConnection (this st2) = wsConnection (this st) /\
                        wsMessageQueue (this st2) = wsMessageQueue (this st))
      by (by subst st2).
    destruct same_link as (Hep2 & Hc2 & Hq2).
    destruct (IH st2 (rest ++ [m])%list) as (IHqueue & IHframes & IHsent & IHfailed).
    + by rewrite Hep2.
    + by rewrite Hc2.
    + unfold socket_state in *. by rewrite Hsockets.
    + rewrite Hq2, Harrays. unfold enqueued. simpl.
      rewrite list_insert_insert_eq. by apply list_lookup_insert_eq.
    + done.
    + rewrite IHqueue, IHframes, IHsent, IHfailed, Hframes, Hsent, Hfailed.
      rewrite <- app_assoc. rewrite Hthis. cbn [length].
      repeat split. lia.
Qed.

End Blocked.

Lemma refused_record_blocks_queue_witness :
  let poisoned :=
    {| this := this backlog_state;
       world := with_arrays [[[("_meta", VNull)]]] (world backlog_state) |} in
  let st' := @sends cycle_host
               [[("short_message", VStr "a")]; [("short_message", VStr "b")]]
               poisoned in
  @accepted cycle_host 0 [("_meta", VNull)] = false /\
  queue_of st' = [[("_meta", VNull)]; [("short_message", VStr "a")];
                  [("short_message", VStr "b")]] /\
  frames_on 0 (world st') = [] /\
  getStats (this st') =
  {| v_sent := 0; v_failed := 2; v_skipped := 0; failedMessagesCount := 2 |}.
Proof.
  cbv zeta.
  pose proof (@refused_record_blocks_queue cycle_host
                [[("short_message", VStr "a")]; [("short_message", VStr "b")]]
                {| this := this backlog_state;
                   world := with_arrays [[[("_meta", VNull)]]]
                              (world backlog_state) |}
                0%nat [("_meta", VNull)] []
                eq_refl eq_refl eq_refl eq_refl eq_refl)
    as (Hqueue & Hframes & _ & _).
  split; [reflexivity|]. split; [by rewrite Hqueue|].
  split; [by rewrite Hframes|]. reflexivity.
Defined.

(* --------------------------------------------------------------------- *)
(** ** Construction *)

Section Construction.
Context `{Host}.
Implicit Types (st : State) (l : Logger) (w : World) (config : Config).






End Construction.




(* --------------------------------------------------------------------- *)
(** ** Reading the failure history *)

Section Reading.
Implicit Types (l : Logger) (n : Z) (fs : list FailureRecord).

Lemma tally_total fs :
  (tally "no_endpoint" fs + tally "http_error" fs + tally "timeout" fs
   + tally "network_error" fs + tally_unlisted fs)%Z
  = Z.of_nat (length fs).
Proof.
  induction fs as [|f fs IH]; [done|].
  rewrite !tally_cons, tally_unlisted_cons.
  assert ((if bool_decide (f_reason f = "no_endpoint") then 1 else 0)
          + (if bool_decide (f_reason f = "http_error") then 1 else 0)
          + (if bool_decide (f_reason f = "timeout") then 1 else 0)
          + (if bool_decide (f_reason f = "network_error") then 1 else 0)
          + (if bool_decide (f_reason f ∈ summarised) then 0 else 1) = 1)%Z
    as Hone.
  { destruct (decide (f_reason f ∈ summarised)) as [Hin|Hout].
    - rewrite (bool_decide_eq_true_2 _ Hin). unfold summarised in Hin.
      rewrite !elem_of_cons, elem_of_nil in Hin.
      repeat destruct Hin as [->|Hin]; try done; reflexivity.
    - rewrite (bool_decide_eq_false_2 _ Hout). unfold summarised in Hout.
      rewrite !elem_of_cons, elem_of_nil in Hout.
      by rewrite !(bool_decide_eq_false_2 (f_reason f = _)) by tauto. }
  cbn [length]. lia.
Qed.

(** The summary accounts for every retained failure exactly once: its
    five counts add up to the number of retained failure records, which is
    the [failedMessagesCount] of [getStats]. *)
Theorem summary_accounts_for_every_failure l :
  total (getFailureSummary l) = failedMessagesCount (getStats l)
  /\ (getFailureSummary l).*1
     = ["no_endpoint"; "http_error"; "timeout"; "network_error"; "other"]
  /\ Forall (fun count => (0 <= count)%Z) (getFailureSummary l).*2.
Proof.
  unfold getFailureSummary.
  change [("no_endpoint", 0%Z); ("http_error", 0%Z); ("timeout", 0%Z);
          ("network_error", 0%Z); ("other", 0%Z)]
    with (summary_of 0 0 0 0 0).
  rewrite summary_fold, !Z.add_0_l.
  split; [|split].
  - unfold total, summary_of, getStats. simpl.
    pose proof (tally_total (failedMessages l)). lia.
  - reflexivity.
  - unfold summary_of, tally, tally_unlisted. simpl.
    repeat constructor; lia.
Qed.

(** A negative limit does not limit: [getFailedMessages(-n)] drops the
    [n] oldest failure records and returns all the others. *)
Theorem negative_limit_drops_oldest l n :
  (0 < n)%Z ->
  getFailedMessages (Some (- n)%Z) l = drop (Z.to_nat n) (failedMessages l).
Proof.
  intros Hn. unfold getFailedMessages, slice.
  rewrite (proj2 (Z.eqb_neq (- n) 0)) by lia.
  rewrite Z.opp_involutive, (proj2 (Z.ltb_ge n 0)) by lia.
  destruct (decide (n <= Z.of_nat (length (failedMessages l)))%Z) as [Hle|Hgt].
  - by rewrite Z.min_l.
  - rewrite Z.min_r, Nat2Z.id by lia. rewrite !drop_ge; [done|lia|lia].
Qed.

End Reading.

Lemma negative_limit_drops_oldest_witness :
  (0 < 1)%Z /\
  getFailedMessages (Some (-1)%Z) three_failures
  = [failure "timeout" 2; failure "ws_send_error" 3].
Proof.
  split; [lia|].
  exact (negative_limit_drops_oldest three_failures 1 eq_refl).
Defined.

(* --------------------------------------------------------------------- *)
(** ** More on the record *)

Section Record.
Context `{Host}.
Implicit Types (l : Logger) (m : object) (v : value).

Lemma base_keys l now level sm fm k :
  is_Some (get_prop (add_full_message fm (base_message l now level sm)) k) ->
  k ∈ ["version"; "host"; "short_message"; "timestamp"; "level"; "facility";
       "_log_session_id"; "full_message"].
Proof.
  unfold add_full_message. rewrite !elem_of_cons.
  destruct (truthy fm).
  - rewrite get_set. case_bool_decide; [naive_solver|].
    simpl. repeat (case_bool_decide; [naive_solver|]). by intros [? ?].
  - simpl. repeat (case_bool_decide; [naive_solver|]). by intros [? ?].
Qed.


(** Every additional field is prefixed.  The fields of a record whose
    name does not start with an underscore are the standard ones, version,
    host, short_message, timestamp, level and facility, and full_message
    when a full message was given; they hold what the builder put there,
    whatever the ambient context, the global fields and the custom fields
    contain. *)
Theorem additional_fields_are_prefixed l now level sm fm cf m :
  _buildGELFMessage l now level sm fm cf = Normal m ->
  let base := add_full_message (default_arg VNull fm)
                               (base_message l now level sm) in
  (forall k, startsWith_underscore k = false -> get_prop m k = get_prop base k)
  /\ (forall k, is_Some (get_prop m k) ->
        startsWith_underscore k = true \/
        k ∈ ["version"; "host"; "short_message"; "timestamp"; "level";
             "facility"; "full_message"])
  /\ get_prop m "facility" = Some (VStr (facility l))
  /\ get_prop m "timestamp" = Some (VSeconds now)
  /\ (is_Some (get_prop m "full_message")
      <-> truthy (default_arg VNull fm) = true).
Proof.
  intros Hbuild base.
  assert (forall k, startsWith_underscore k = false ->
                    get_prop m k = get_prop base k) as Hplain.
  { intros k Hk. rewrite (built_record _ _ _ _ _ _ _ Hbuild), get_assign.
    rewrite last_write_None; [done|].
    intros v Hin. apply writes_prefixed in Hin. congruence. }
  split; [exact Hplain|]. split; [|split; [|split]].
  - intros k Hsome.
    destruct (startsWith_underscore k) eqn:Hk; [by left|right].
    rewrite (Hplain k Hk) in Hsome. apply base_keys in Hsome.
    rewrite !elem_of_cons in *.
    destruct Hsome as [?|[?|[?|[?|[?|[?|[->|?]]]]]]]; try discriminate Hk;
      tauto.
  - rewrite Hplain by done. subst base. unfold add_full_message.
    destruct (truthy _); [by rewrite get_set_other|done].
  - rewrite Hplain by done. subst base. unfold add_full_message.
    destruct (truthy _); [by rewrite get_set_other|done].
  - rewrite Hplain by done. subst base. unfold add_full_message.
    destruct (truthy _).
    + rewrite get_set_same. split; [done|by eexists].
    + simpl. split; [by intros [? ?]|done].
Qed.


End Record.

Lemma additional_fields_are_prefixed_witness :
  exists m,
    @_buildGELFMessage sample_host nested_global_logger 5 6 (VStr "x") VNull
      (VObj [("facility", VStr "evil"); ("timestamp", VNum 0)]) = Normal m /\
    get_prop m "facility" = Some (VStr "worker") /\
    get_prop m "timestamp" = Some (VSeconds 5) /\
    get_prop m "_facility" = Some (VStr "evil").
Proof.
  eexists. split; [reflexivity|].
  destruct (@additional_fields_are_prefixed sample_host nested_global_logger
              5 6 (VStr "x") VNull
              (VObj [("facility", VStr "evil"); ("timestamp", VNum 0)])
              _ eq_refl) as (_ & _ & Hfacility & Htimestamp & _).
  split; [exact Hfacility|]. split; [exact Htimestamp|]. reflexivity.
Defined.


(* --------------------------------------------------------------------- *)
(** ** Records and values that do not serialise *)

Section Unserialisable.
Context `{Host}.
Implicit Types (st : State) (l : Logger) (m : object) (v : value).

(** A log call that passes the level test and builds a record hands it to
    [_send]. *)
Lemma log_sends st level sm fm cf m :
  (level <= minLevel (this st))%Z ->
  _buildGELFMessage (this st) (clock (world st)) level sm
    (default_arg VNull fm) (default_arg (VObj []) cf) = Normal m ->
  _log level sm fm cf st =
  try_catch
    (_send m;;;
     let* l' := get_this in
     when (verbose l') (console_mirror level sm (default_arg VNull fm)))
    _log_catch st.
Proof.
  intros Hle Hm.
  unfold _log, try_catch, _log_try, bind at 1 2 3, get_this, Date_now, lift.
  destruct (level >? minLevel (this st))%Z eqn:Hgt;
    [apply Z.gtb_gt in Hgt; lia|].
  by rewrite Hm.
Qed.

(** The one-shot send of a record that does not serialise raises after
    the cancellation timer has been started. *)
Lemma _send_unserialisable st m e :
  useWebSocket (this st) = false ->
  str_truthy (endpoint (this st)) = true ->
  JSON_stringify (VObj m) = Throw e ->
  _send m st =
  (Throw e,
   {| this := this st;
      world :=
        with_trace
          (trace (world st) ++
           [ESetTimeout (next_timer (world st))
                        (CbAbort (next_promise (world st)))
                        (VNum (timeout (this st)))])
          (with_next_timer (S (next_timer (world st))) (world st)) |}).
Proof.
  intros Hmode Hep Hjson. unfold _send. unfold bind at 1, get_this at 1.
  rewrite Hmode, Hep. simpl.
  unfold setTimeout, bind, get_world, update_world, emit, lift, ret. simpl.
  by rewrite Hjson.
Qed.

(** A record that does not serialise, as one with a cyclic object among
    the global fields, is lost without a trace in the failure history.  On
    the one-shot transport the log call completes normally and counts one
    failure, but records no failure: [getFailedMessages] does not show it.
    No request is issued and none is tracked, and the cancellation timer
    that was started for the request is never cleared. *)
Theorem unserialisable_record_is_not_recorded st level sm fm cf m e :
  useWebSocket (this st) = false ->
  str_truthy (endpoint (this st)) = true ->
  (level <= minLevel (this st))%Z ->
  _buildGELFMessage (this st) (clock (world st)) level sm
    (default_arg VNull fm) (default_arg (VObj []) cf) = Normal m ->
  JSON_stringify (VObj m) = Throw e ->
  let st' := (_log level sm fm cf st).2 in
  (_log level sm fm cf st).1 = Normal tt
  /\ stats (this st')
     = with_failed (failed (stats (this st)) + 1) (stats (this st))
  /\ failedMessages (this st') = failedMessages (this st)
  /\ pendingPromises (this st') = pendingPromises (this st)
  /\ requests (world st') = requests (world st)
  /\ timers (world st') =
     (timers (world st) ++
      [ESetTimeout (next_timer (world st)) (CbAbort (next_promise (world st)))
                   (VNum (timeout (this st)))])%list
  /\ timers_cleared (world st') = timers_cleared (world st).
Proof.
  intros Hmode Hep Hle Hm Hjson st'. subst st'.
  assert (_log level sm fm cf st =
          _log_catch e (_send m st).2) as ->.
  { rewrite (log_sends st level sm fm cf m Hle Hm).
    unfold try_catch, bind at 1.
    by rewrite (_send_unserialisable st m e). }
  rewrite (_send_unserialisable st m e), _log_catch_run by done.
  unfold console_line, requests, timers, timers_cleared. simpl.
  repeat match goal with
         | |- context [if ?b then _ else _] => destruct b
         end; simpl;
    rewrite ?filter_app; simpl; rewrite ?app_nil_r; repeat split.
Qed.




End Unserialisable.

Lemma unserialisable_record_is_not_recorded_witness :
  let st := {| this := nested_global_logger; world := http_world |} in
  let st' := (@_log cycle_host 6 (VStr "x") VUndefined VUndefined st).2 in
  getStats (this st') =
  {| v_sent := 0; v_failed := 1; v_skipped := 0; failedMessagesCount := 0 |} /\
  requests (world st') = [] /\
  timers (world st') = [ESetTimeout 0 (CbAbort 0) (VNum 5000)] /\
  timers_cleared (world st') = [].
Proof.
  cbv zeta.
  pose proof (@unserialisable_record_is_not_recorded cycle_host
                {| this := nested_global_logger; world := http_world |}
                6 (VStr "x") VUndefined VUndefined _
                (TypeError "Converting circular structure to JSON")
                eq_refl eq_refl ltac:(simpl; lia) eq_refl eq_refl)
    as (_ & Hstats & Hhistory & _ & Hrequests & Htimers & Hcleared).
  cbv zeta in Hstats, Hhistory, Hrequests, Htimers, Hcleared.
  unfold getStats. rewrite Hstats, Hhistory, Hrequests, Htimers, Hcleared.
  by repeat split.
Defined.


(* --------------------------------------------------------------------- *)
(** ** What raises *)

Section Safety.
Context `{Host}.
Implicit Types (st : State).

Lemma safe_bind {A B} (c : M A) (k : A -> M B) :
  safe c -> (forall a, safe (k a)) -> safe (bind c k).
Proof.
  intros Hc Hk st. unfold bind. destruct (Hc st) as (a & st' & ->).
  apply Hk.
Qed.

Lemma safe_try_catch {A} (c : M A) (h : JsError -> M A) :
  (forall e, safe (h e)) -> safe (try_catch c h).
Proof.
  intros Hh st. unfold try_catch. destruct (c st) as [[a|e] st'].
  - by eexists _, _.
  - apply Hh.
Qed.

Lemma safe_quiet {A} (c : M A) : quiet c -> safe c.
Proof. intros Hc st. destruct (Hc st) as (a & st' & -> & _). by eexists _, _. Qed.

Lemma safe_lift {A} (a : A) : safe (lift (Normal a)).
Proof. intros st. by eexists _, _. Qed.

Lemma safe_update f : safe (update f).
Proof. intros st. by eexists _, _. Qed.

Lemma safe_logFailure r : safe (_logFailure r).
Proof. intros st. rewrite _logFailure_run. by eexists _, _. Qed.
End Safety.

(** Walks through a statement that completes normally: the body of a
    [try] is not looked at. *)
Ltac tread :=
  cbv beta zeta;
  first
    [ solve [eauto]
    | lazymatch goal with
      | |- safe (bind _ _) => apply safe_bind; [tread | intros ?; tread]
      | |- safe (try_catch _ _) => apply safe_try_catch; intros ?; tread
      | |- safe (if ?b then _ else _) => destruct b eqn:?; tread
      | |- safe (update _) => apply safe_update
      | |- safe (lift (Normal _)) => apply safe_lift
      | |- safe (_logFailure _) => apply safe_logFailure
      | |- safe _ =>
          first [ apply safe_quiet; solve [auto with statements]
                | progress unfold when, incr_sent, incr_failed, incr_skipped;
                  tread ]
      end ].

Section Raising.
Context `{Host}.
Implicit Types (st : State).

Lemma safe_drain c q queue : safe (drain c q queue).
Proof. induction queue as [|message rest IH]; cbn [drain]; tread. Qed.

Lemma safe_process : safe _processWebSocketQueue.
Proof. pose proof safe_drain. unfold _processWebSocketQueue. tread. Qed.

Lemma safe_perform op : raises op = false -> safe (perform op).
Proof.
  pose proof safe_process. intros Hop.
  destruct op as [level sm fm cf|thrown cf|m t resp|m t e| | | | | | |];
    simpl in *;
    try (unfold _log, _log_catch, send_then, send_catch, onopen_handler,
           onclose_handler, onerror_handler, auth_timer_fired,
           _connectWebSocket, clearFailedMessages, resetStats; tread).
  unfold exception, read_prop.
  destruct thrown; try discriminate Hop; cbv beta iota;
    unfold _log, _log_catch; tread.
Qed.

(** Nothing but [exception] raises.  A log call at any level with any
    arguments, a callback of a request, a handler or timer of the socket,
    [clearFailedMessages] and [resetStats] complete normally in every state
    and on every host, whatever serialisation, the socket or its
    constructor raise; so does [exception] on a value other than [null] and
    [undefined]. *)
Theorem nothing_but_exception_raises op st :
  raises op = false -> (perform op st).1 = Normal tt.
Proof.
  intros Hop. destruct (safe_perform op Hop st) as ([] & st' & ->). done.
Qed.

End Raising.

Lemma nothing_but_exception_raises_witness :
  (@perform failing_host
     (Log 3 (VStr "x") (VArr [VNum 1]) VNull) ws_state).1 = Normal tt /\
  (@perform offline_host ReconnectTimerFired exhausted_state).1 = Normal tt /\
  (@perform sample_host (LogException (VStr "boom") VNull) http_state).1
  = Normal tt.
Proof.
  split; [|split].
  - exact (@nothing_but_exception_raises failing_host
             (Log 3 (VStr "x") (VArr [VNum 1]) VNull) ws_state eq_refl).
  - exact (@nothing_but_exception_raises offline_host ReconnectTimerFired
             exhausted_state eq_refl).
  - exact (@nothing_but_exception_raises sample_host
             (LogException (VStr "boom") VNull) http_state eq_refl).
Defined.

(* --------------------------------------------------------------------- *)
(** ** Order on the stream *)

Section Order.
Context `{Host}.
Implicit Types (st : State) (m : object) (c : nat).

Lemma taken_accepted c queue :
  Forall (fun message => accepted c message = true) (taken c queue).
Proof.
  induction queue as [|message rest IH]; simpl; [done|].
  destruct (accepted c message) eqn:Hm; [by constructor|done].
Qed.

(** Draining leaves the endpoint, the socket and the queue of the logger
    as they are. *)
Lemma drain_keeps_link ep conn q0 (socket : option nat) q queue st :
  wsEndpoint (this st) = ep /\ wsConnection (this st) = conn /\
  wsMessageQueue (this st) = q0 ->
  let st' := (drain socket q queue st).2 in
  wsEndpoint (this st') = ep /\ wsConnection (this st') = conn /\
  wsMessageQueue (this st') = q0.
Proof.
  intros Hlink.
  assert (triple (holds (fun l => wsEndpoint l = ep /\ wsConnection l = conn /\
                                  wsMessageQueue l = q0) (fun w => True))
                 (drain socket q queue)
                 (holds (fun l => wsEndpoint l = ep /\ wsConnection l = conn /\
                                  wsMessageQueue l = q0) (fun w => True))
                 (holds (fun l => wsEndpoint l = ep /\ wsConnection l = conn /\
                                  wsMessageQueue l = q0) (fun w => True)))
    as Hdrain
    by (clear Hlink st; induction queue; cbn [drain]; stride side).
  assert (holds (fun l => wsEndpoint l = ep /\ wsConnection l = conn /\
                          wsMessageQueue l = q0) (fun w => True) st) as Hst
    by done.
  apply (triple_run _ _ _ Hdrain) in Hst. by destruct Hst.
Qed.

(** A send on an open socket: the queue with the new record behind it is
    drained. *)
Lemma send_on_open_socket st m c :
  str_truthy (wsEndpoint (this st)) = true ->
  wsConnection (this st) = Some c ->
  socket_state (world st) c = 1%Z ->
  queue_allocated st ->
  let st' := (_sendWebSocket m st).2 in
  let queue := (queue_of st ++ [m])%list in
  frames_on c (world st')
  = (frames_on c (world st) ++ (frame <$> taken c queue))%list
  /\ queue_of st' = left_over c queue
  /\ sent (stats (this st'))
     = (sent (stats (this st)) + Z.of_nat (length (taken c queue)))%Z
  /\ (str_truthy (wsEndpoint (this st')) = true /\
      wsConnection (this st') = Some c /\
      socket_state (world st') c = 1%Z /\
      queue_allocated st').
Proof.
  intros Hep Hc Hopen Hq st' queue. subst st'.
  rewrite (send_processes st m c Hep Hc Hopen).
  assert (arrays (world (enqueued m st)) !! wsMessageQueue (this st)
          = Some queue) as Hqueue
    by (unfold enqueued; simpl; by rewrite list_lookup_insert_eq).
  rewrite (process_on_open_socket (enqueued m st) c _ Hc Hopen Hqueue).
  change (wsMessageQueue (this (enqueued m st)))
    with (wsMessageQueue (this st)).
  assert (wsMessageQueue (this st) < length (arrays (world (enqueued m st))))%nat
    as Hq1 by (unfold enqueued; simpl; by rewrite length_insert).
  destruct (drain_outcome c (wsMessageQueue (this st)) queue (enqueued m st) Hq1)
    as (_ & Harrays & Hframes & Hsent & _ & Hsockets & _).
  destruct (drain_keeps_link (wsEndpoint (this st)) (Some c)
              (wsMessageQueue (this st)) (Some c) (wsMessageQueue (this st))
              queue (enqueued m st)) as (Hep' & Hc' & Hq');
    [by repeat split|].
  cbv zeta in Harrays, Hframes, Hsent, Hsockets, Hep', Hc', Hq'.
  set (st1 := (drain _ _ _ _).2) in *.
  assert (queue <> []) as Hne by (subst queue; by destruct (queue_of st)).
  specialize (Harrays Hne).
  split; [exact Hframes|]. split; [|split; [exact Hsent|]].
  - unfold queue_of. rewrite Hq', Harrays. unfold enqueued. simpl.
    by rewrite list_insert_insert_eq, list_lookup_insert_eq.
  - split; [by rewrite Hep'|]. split; [exact Hc'|]. split.
    + unfold socket_state in *. by rewrite Hsockets.
    + unfold queue_allocated. rewrite Hq', Harrays. unfold enqueued. simpl.
      by rewrite !length_insert.
Qed.

(** The stream transport keeps the order and loses nothing.  Over any run
    of sends on an open socket, the records sent, followed by the records
    still queued, are the records that were queued followed by the new
    ones in the order of the calls: no record is dropped, sent twice or
    overtaken.  Every record sent was taken by the socket, and [sent]
    grows by their number. *)
Theorem stream_keeps_order messages st c :
  str_truthy (wsEndpoint (this st)) = true ->
  wsConnection (this st) = Some c ->
  socket_state (world st) c = 1%Z ->
  queue_allocated st ->
  let st' := sends messages st in
  exists delivered,
    frames_on c (world st')
    = (frames_on c (world st) ++ (frame <$> delivered))%list
    /\ (delivered ++ queue_of st')%list = (queue_of st ++ messages)%list
    /\ Forall (fun message => accepted c message = true) delivered
    /\ sent (stats (this st'))
       = (sent (stats (this st)) + Z.of_nat (length delivered))%Z.
Proof.
  revert st. induction messages as [|m messages IH];
    intros st Hep Hc Hopen Hq st'; subst st'.
  - exists []. simpl. rewrite !app_nil_r. repeat split; [done|lia].
  - rewrite sends_cons.
    destruct (send_on_open_socket st m c Hep Hc Hopen Hq)
      as (Hframes & Hqueue & Hsent & Hep1 & Hc1 & Hopen1 & Hq1).
    cbv zeta in Hframes, Hqueue, Hsent, Hep1, Hc1, Hopen1, Hq1.
    destruct (IH _ Hep1 Hc1 Hopen1 Hq1)
      as (delivered & IHframes & IHqueue & IHaccepted & IHsent).
    cbv zeta in IHframes, IHqueue, IHsent.
    exists (taken c (queue_of st ++ [m]) ++ delivered)%list.
    split; [|split; [|split]].
    + by rewrite IHframes, Hframes, fmap_app, app_assoc.
    + rewrite <- app_assoc, IHqueue, Hqueue, app_assoc, taken_left_over.
      by rewrite <- app_assoc.
    + apply Forall_app. split; [apply taken_accepted|done].
    + rewrite IHsent, Hsent, length_app. lia.
Qed.

End Order.

Lemma stream_keeps_order_witness :
  let st' := @sends cycle_host
               [[("short_message", VStr "four")]] backlog_state in
  frames_on 0 (world st') = [sample_json (VObj [("short_message", VStr "one")])]
  /\ queue_of st' = [[("short_message", VStr "two"); ("_meta", VNull)];
                     [("short_message", VStr "three")];
                     [("short_message", VStr "four")]].
Proof.
  destruct (@stream_keeps_order cycle_host [[("short_message", VStr "four")]]
              backlog_state 0%nat eq_refl eq_refl eq_refl (le_n 1))
    as (delivered & _ & Horder & _).
  cbv zeta in Horder. cbv zeta. split; [reflexivity|].
  assert (@queue_of (@sends cycle_host [[("short_message", VStr "four")]]
                       backlog_state)
          = [[("short_message", VStr "two"); ("_meta", VNull)];
             [("short_message", VStr "three")];
             [("short_message", VStr "four")]]) as Hqueue by reflexivity.
  rewrite Hqueue in Horder |- *. reflexivity.
Defined.
